(** * MDL (Muddle): a Lispy-style interpreter, embedded from [src/mdl.py]

    The development follows the source top to bottom: the tokenizer, the
    reader, the atom classifier, environments ([Env]), procedures
    ([Procedure]) and the evaluator ([eval], the second definition of the
    file, which is the one in force when the module has loaded).

    Python objects are modelled as follows.
    - [str] is [string] (a sequence of bytes, as in Python 2).
    - [int] (with its silent promotion to [long]) is [Z].
    - [float] is the kernel's binary64 type.
    - Expressions, as the reader builds them, are the type [expr]; the values
      the evaluator computes are the type [val].  [eval] is only ever applied
      to what the reader returns and to sub-terms of it, so the model types
      its first argument as [expr].
    - [Env] objects live in a heap (a list indexed by allocation order); a
      reference to an [Env] is an index of that list. *)

From Stdlib Require Import ZArith String Ascii List Bool Lia Floats.
From Stdlib Require Import DecimalString DecimalPos.
From stdpp Require Import base option list.

Import ListNotations.
Set Warnings "-register-all".
Local Open Scope string_scope.
Local Open Scope list_scope.

(** ** Strings: the two [str] methods the tokenizer calls *)

Module Str.

(** [s.replace(old, new)] for a one-character [old]: every occurrence is
    replaced, left to right. *)
Fixpoint replace (old : ascii) (new : string) (s : string) : string :=
  match s with
  | EmptyString => EmptyString
  | String c s' =>
      if Ascii.eqb c old then new ++ replace old new s'
      else String c (replace old new s')
  end.

(** The characters [str.split()] treats as separators (C locale
    [isspace]): space, and the bytes 9 to 13. *)
Definition isspace (c : ascii) : bool :=
  let n := nat_of_ascii c in
  Nat.eqb n 32 || (Nat.leb 9 n && Nat.leb n 13).

(** [flush word]: the pending word, when there is one. *)
Definition flush (word : string) : list string :=
  match word with
  | EmptyString => []
  | _ => [word]
  end.

(** [s.split()] scans [s] once; [word] holds the characters of the word
    being read. *)
Fixpoint split_from (word : string) (s : string) : list string :=
  match s with
  | EmptyString => flush word
  | String c s' =>
      if isspace c then flush word ++ split_from EmptyString s'
      else split_from (word ++ String c EmptyString) s'
  end.

Definition split (s : string) : list string := split_from EmptyString s.

(** [c in s] for a character [c]. *)
Fixpoint contains (c : ascii) (s : string) : bool :=
  match s with
  | EmptyString => false
  | String d s' => Ascii.eqb d c || contains c s'
  end.

End Str.

(** ** Lexer *)

(** [brackets = list("()<>")] *)
Definition brackets : list ascii := ["("; ")"; "<"; ">"]%char.

(** [' ' + bracket + ' '] *)
Definition spaced (bracket : ascii) : string :=
  String " " (String bracket (String " " EmptyString)).

(** The [for] loop: [s] rewritten once per bracket. *)
Definition spaced_out (s : string) : string :=
  fold_left (fun s bracket => Str.replace bracket (spaced bracket) s)
    brackets s.

(** [tokenize(s)] *)
Definition tokenize (s : string) : list string := Str.split (spaced_out s).

(** ** Data model *)

(** What [read_from_tokens] builds: numbers, symbols ([Symbol = str]) and
    Python lists of expressions. *)
Inductive expr : Type :=
| Int (n : Z)
| Float (f : float)
| Symbol (s : string)
| Lst (l : list expr).

(** A reference to an [Env] object. *)
Definition loc : Type := nat.

(** The native callables that [standard_env] installs, one constructor per
    Python object: ['+'] and ['append'] are both [operator.add], ['='] and
    ['equal?'] both [operator.eq]; each [lambda] of the table is an object
    of its own, and [math_fn name] is the function [math.name]. *)
Inductive builtin : Type :=
| op_add | op_sub | op_mul | op_div
| op_gt | op_lt | op_ge | op_le | op_eq
| py_abs | py_apply | lam_begin | lam_car | lam_cdr | lam_cons
| op_is | py_len | lam_list | lam_listp | py_map | py_max | py_min
| op_not | lam_nullp | lam_numberp | py_callable | py_round | lam_symbolp
| math_fn (name : string).

(** Values: what [eval] returns and what environments hold.  [VProcedure]
    is an instance of the class [Procedure] with its three attributes;
    the third is a reference, not a copy. *)
Inductive val : Type :=
| VInt (n : Z)
| VFloat (f : float)
| VStr (s : string)
| VBool (b : bool)
| VNone
| VList (l : list val)
| VTuple (l : list val)
| VProcedure (parms body : expr) (env : loc)
| VBuiltin (b : builtin).

(** An expression returned as a value, as [quote] does: the same object,
    seen as a value. *)
Fixpoint quoted (x : expr) : val :=
  match x with
  | Int n => VInt n
  | Float f => VFloat f
  | Symbol s => VStr s
  | Lst l => VList (List.map quoted l)
  end.

(** Python exceptions, by class.  [SyntaxError] carries the message the
    source gives it; [OtherError] is any class the host raises that the
    source never mentions. *)
Inductive exn : Type :=
| SyntaxError (msg : string)
| IndexError
| AttributeError
| TypeError
| ValueError
| ZeroDivisionError
| NameError
| KeyError
| OtherError (cls : string).

Definition exn_class (e : exn) : string :=
  match e with
  | SyntaxError _ => "SyntaxError"
  | IndexError => "IndexError"
  | AttributeError => "AttributeError"
  | TypeError => "TypeError"
  | ValueError => "ValueError"
  | ZeroDivisionError => "ZeroDivisionError"
  | NameError => "NameError"
  | KeyError => "KeyError"
  | OtherError cls => cls
  end.

(** A call either returns or raises. *)
Inductive outcome (A : Type) : Type :=
| Ok (a : A)
| Raise (e : exn).
Arguments Ok {A} a.
Arguments Raise {A} e.

(** ** The host: what the module takes from the Python runtime

    [float_of_token] is [float(token)] ([None] for [ValueError]);
    [math_vars] is [vars(math)]; [native k f args] is the result of the
    [k]-th native call of a run, for the calls the development does not
    spell out (floating point, orderings across types, object identity);
    indexing by [k] lets one operation answer differently at different
    times, as [operator.is_] does. *)
Record runtime : Type := {
  float_of_token : string -> option float;
  math_vars : list (string * val);
  native : nat -> builtin -> list val -> outcome val
}.

(** ** [int(token)] *)

Definition is_digit (c : ascii) : bool :=
  let n := nat_of_ascii c in Nat.leb 48 n && Nat.leb n 57.

Definition digit_value (c : ascii) : Z := Z.of_nat (nat_of_ascii c) - 48.

(** The value of a run of decimal digits, [None] when a character is not
    a digit. *)
Fixpoint digits_value (acc : Z) (s : string) : option Z :=
  match s with
  | EmptyString => Some acc
  | String c s' =>
      if is_digit c then digits_value (10 * acc + digit_value c) s' else None
  end.

Definition unsigned_int (s : string) : option Z :=
  match s with
  | EmptyString => None
  | _ => digits_value 0 s
  end.

(** White space removed at the left end and at the right end. *)
Fixpoint lstrip (s : string) : string :=
  match s with
  | EmptyString => EmptyString
  | String c s' => if Str.isspace c then lstrip s' else s
  end.

Fixpoint rstrip (s : string) : string :=
  match s with
  | EmptyString => EmptyString
  | String c s' =>
      match rstrip s' with
      | EmptyString => if Str.isspace c then EmptyString else String c EmptyString
      | r => String c r
      end
  end.

(** An optional sign, then one digit or more. *)
Definition signed_int (s : string) : option Z :=
  match s with
  | String "+"%char s' => unsigned_int s'
  | String "-"%char s' => Z.opp <$> unsigned_int s'
  | _ => unsigned_int s
  end.

(** [int(token)] in base 10: white space around the numeral is skipped,
    the numeral is an optional sign, then one digit or more; [None]
    stands for [ValueError]. *)
Definition int_of_token (token : string) : option Z :=
  signed_int (lstrip (rstrip token)).

(** ** Dictionaries

    An [Env] is a [dict]; its keys are whatever the program text puts in
    the name position of [define], [set!] or a parameter list: any
    hashable expression.  Keys are compared as Python compares them
    ([==]): a [str] only equals the same [str], and numbers are equal when
    they have the same value, whatever their types.  (Python also matches
    a key by object identity, which only differs from [==] for the
    not-a-number [float].)  Python 2 dictionaries have no order; the list
    order below is never observed. *)

(** [f == n] for a [float] and an [int]: an exact comparison. *)
Definition float_eq_Z (f : float) (n : Z) : bool :=
  match Prim2SF f with
  | S754_zero _ => Z.eqb n 0
  | S754_finite s m e =>
      let mz := if s then Z.neg m else Z.pos m in
      if Z.leb 0 e then Z.eqb (mz * 2 ^ e) n else Z.eqb mz (n * 2 ^ (- e))
  | _ => false
  end.

(** Lists are not hashable; every atom is. *)
Definition hashable (k : expr) : bool :=
  match k with
  | Lst _ => false
  | _ => true
  end.

Definition key_eqb (a b : expr) : bool :=
  match a, b with
  | Symbol s, Symbol t => String.eqb s t
  | Int m, Int n => Z.eqb m n
  | Float f, Float g => PrimFloat.eqb f g
  | Int m, Float f => float_eq_Z f m
  | Float f, Int m => float_eq_Z f m
  | _, _ => false
  end.

Definition pydict : Type := list (expr * val).

(** [d[k]], [None] when the key is missing. *)
Fixpoint dict_get (k : expr) (d : pydict) : option val :=
  match d with
  | [] => None
  | (k', v) :: d' => if key_eqb k' k then Some v else dict_get k d'
  end.

(** [k in d] *)
Definition dict_mem (k : expr) (d : pydict) : bool :=
  match dict_get k d with
  | Some _ => true
  | None => false
  end.

(** [d[k] = v]: an existing entry keeps its key and gets the value. *)
Fixpoint dict_set (k : expr) (v : val) (d : pydict) : pydict :=
  match d with
  | [] => [(k, v)]
  | (k', v') :: d' =>
      if key_eqb k' k then (k', v) :: d' else (k', v') :: dict_set k v d'
  end.

(** [d.update(pairs)], in order; an unhashable key raises [TypeError]. *)
Fixpoint dict_update (d : pydict) (pairs : list (expr * val)) : outcome pydict :=
  match pairs with
  | [] => Ok d
  | (k, v) :: pairs' =>
      if hashable k then dict_update (dict_set k v d) pairs'
      else Raise TypeError
  end.

(** [d.update(table)] for a table with [str] keys. *)
Definition dict_update_str (d : pydict) (table : list (string * val)) : pydict :=
  fold_left (fun d kv => dict_set (Symbol (fst kv)) (snd kv) d) table d.

(** ** Environments and the heap *)

(** [class Env(dict)]: the dictionary and the attribute [outer]. *)
Record Env : Type := mkEnv {
  dict : pydict;
  outer : option loc
}.

(** The mutable state of a run: the [Env] objects allocated so far, and
    the number of native calls made through [native]. *)
Record state : Type := mkState {
  heap : list Env;
  clock : nat
}.

(** Computations: they read and change the state, and return, raise, or
    have no result within the recursion bound ([None]). *)
Definition M (A : Type) : Type := state -> option (outcome A * state).

Definition ret {A} (a : A) : M A := fun st => Some (Ok a, st).

Definition raise {A} (e : exn) : M A := fun st => Some (Raise e, st).

Definition lift {A} (r : outcome A) : M A := fun st => Some (r, st).

Definition no_result {A} : M A := fun _ => None.

Definition bind {A B} (m : M A) (k : A -> M B) : M B :=
  fun st =>
    match m st with
    | Some (Ok a, st') => k a st'
    | Some (Raise e, st') => Some (Raise e, st')
    | None => None
    end.

Declare Scope py_scope.
Delimit Scope py_scope with py.
Notation "x <- m ;; k" := (bind m (fun x => k))
  (at level 100, m at next level, right associativity) : py_scope.
Notation "m ;;; k" := (bind m (fun _ => k))
  (at level 100, right associativity) : py_scope.
Local Open Scope py_scope.

(** [[f(a) for a in l]], left to right. *)
Fixpoint mapM {A B} (f : A -> M B) (l : list A) : M (list B) :=
  match l with
  | [] => ret []
  | a :: l' => b <- f a ;; bs <- mapM f l' ;; ret (b :: bs)
  end.

(** A new [Env] object. *)
Definition alloc (e : Env) : M loc :=
  fun st => Some (Ok (length (heap st)), mkState (heap st ++ [e]) (clock st)).

(** The object behind a reference.  References only come from [alloc];
    one that points outside the heap has no counterpart in Python, and
    the model gives it no result. *)
Definition deref (l : loc) : M Env :=
  fun st =>
    match heap st !! l with
    | Some e => Some (Ok e, st)
    | None => None
    end.

(** Iterating an expression, as [zip] does with [parms]: a list gives its
    elements, a [str] its characters, a number raises [TypeError]. *)
Definition iter_expr (x : expr) : outcome (list expr) :=
  match x with
  | Lst l => Ok l
  | Symbol s =>
      Ok (List.map (fun c => Symbol (String c EmptyString)) (list_ascii_of_string s))
  | _ => Raise TypeError
  end.

(** [zip(parms, args)]: pairs, as many as the shorter of the two has. *)
Definition zip (parms : expr) (args : list val) : outcome (list (expr * val)) :=
  match iter_expr parms with
  | Ok names => Ok (combine names args)
  | Raise e => Raise e
  end.

(** [Env(parms, args, outer)], that is [Env.__init__]:
    [self.update(zip(parms, args)); self.outer = outer]. *)
Definition Env_init (parms : expr) (args : list val) (outer : option loc) : M loc :=
  pairs <- lift (zip parms args) ;;
  d <- lift (dict_update [] pairs) ;;
  alloc (mkEnv d outer).

(** [Env.find]: one call, [rec] being the method itself. *)
Definition find_step (rec : expr -> loc -> M loc) (var : expr) (self : loc) : M loc :=
  e <- deref self ;;
  if hashable var then
    if dict_mem var (dict e) then ret self
    else
      match outer e with
      | Some o => rec var o
      | None => raise AttributeError
      end
  else raise TypeError.

Fixpoint find (fuel : nat) (var : expr) (self : loc) : M loc :=
  match fuel with
  | O => no_result
  | S fuel' => find_step (find fuel') var self
  end.

(** [env[k]] *)
Definition Env_getitem (self : loc) (k : expr) : M val :=
  e <- deref self ;;
  if hashable k then
    match dict_get k (dict e) with
    | Some v => ret v
    | None => raise KeyError
    end
  else raise TypeError.

(** [env[k] = v] *)
Definition Env_setitem (self : loc) (k : expr) (v : val) : M unit :=
  e <- deref self ;;
  if hashable k then
    fun st =>
      Some (Ok tt,
            mkState (<[self := mkEnv (dict_set k v (dict e)) (outer e)]> (heap st))
                    (clock st))
  else raise TypeError.

Section Interpreter.

Variable host : runtime.

(** ** Parser *)

(** [atom(token)]: [int], else [float], else [Symbol]. *)
Definition atom (token : string) : expr :=
  match int_of_token token with
  | Some n => Int n
  | None =>
      match float_of_token host token with
      | Some f => Float f
      | None => Symbol token
      end
  end.

(** [read_from_tokens(tokens)].  The list [tokens] is mutated by
    [tokens.pop(0)], so the model threads it: each function returns what is
    left of it, also when it raises.  [read_while] is the [while] loop of
    the ['('] branch, [L] being the list built so far; [tokens[0]] on the
    empty list raises [IndexError].  The recursion is bounded by [fuel];
    [None] means the bound was reached. *)
Fixpoint read_from_tokens (fuel : nat) (tokens : list string)
  : option (outcome expr * list string) :=
  match fuel with
  | O => None
  | S fuel' =>
      match tokens with
      | [] => Some (Raise (SyntaxError "unexpected EOF while reading"), [])
      | token :: tokens' =>
          if String.eqb "(" token then read_while fuel' [] tokens'
          else if String.eqb ")" token then
            Some (Raise (SyntaxError "unexpected )"), tokens')
          else Some (Ok (atom token), tokens')
      end
  end
with read_while (fuel : nat) (L : list expr) (tokens : list string)
  : option (outcome expr * list string) :=
  match fuel with
  | O => None
  | S fuel' =>
      match tokens with
      | [] => Some (Raise IndexError, [])
      | t :: rest =>
          if negb (String.eqb t ")") then
            match read_from_tokens fuel' tokens with
            | Some (Ok x, tokens') => read_while fuel' (L ++ [x]) tokens'
            | Some (Raise e, tokens') => Some (Raise e, tokens')
            | None => None
            end
          else Some (Ok (Lst L), rest)
      end
  end.

(** A bound that is always enough for [tokens] (see [read_fuel_enough]). *)
Definition read_fuel (tokens : list string) : nat := S (2 * length tokens).

(** [parse(program)] *)
Definition parse (program : string) : option (outcome expr) :=
  let tokens := tokenize program in
  fst <$> read_from_tokens (read_fuel tokens) tokens.

(** ** The standard procedures *)

(** Python's truth test, as [if] and [not] apply it: zero, the empty
    string, list and tuple, [False] and [None] are false; every other
    object of the model is true. *)
Definition truthy (v : val) : bool :=
  match v with
  | VInt n => negb (Z.eqb n 0)
  | VFloat f => negb (PrimFloat.eqb f 0)
  | VStr s => negb (String.eqb s EmptyString)
  | VBool b => b
  | VNone => false
  | VList l => negb (Nat.eqb (length l) 0)
  | VTuple l => negb (Nat.eqb (length l) 0)
  | VProcedure _ _ _ => true
  | VBuiltin _ => true
  end.

(** [callable(v)] *)
Definition callable (v : val) : bool :=
  match v with
  | VProcedure _ _ _ => true
  | VBuiltin _ => true
  | _ => false
  end.

(** The native calls the development spells out: integer arithmetic and
    comparison, the list primitives and the predicates.  [None] leaves the
    call to the host. *)
Definition spelled_out (b : builtin) (args : list val) : option (outcome val) :=
  match b, args with
  | op_add, [VInt m; VInt n] => Some (Ok (VInt (m + n)))
  | op_add, [VList l; VList l'] => Some (Ok (VList (l ++ l')))
  | op_sub, [VInt m; VInt n] => Some (Ok (VInt (m - n)))
  | op_mul, [VInt m; VInt n] => Some (Ok (VInt (m * n)))
  | op_div, [VInt m; VInt n] =>
      Some (if Z.eqb n 0 then Raise ZeroDivisionError else Ok (VInt (m / n)))
  | op_gt, [VInt m; VInt n] => Some (Ok (VBool (Z.gtb m n)))
  | op_lt, [VInt m; VInt n] => Some (Ok (VBool (Z.ltb m n)))
  | op_ge, [VInt m; VInt n] => Some (Ok (VBool (Z.geb m n)))
  | op_le, [VInt m; VInt n] => Some (Ok (VBool (Z.leb m n)))
  | op_eq, [VInt m; VInt n] => Some (Ok (VBool (Z.eqb m n)))
  | lam_begin, _ =>
      Some (match last args with Some v => Ok v | None => Raise IndexError end)
  | lam_car, [VList l] =>
      Some (match l with v :: _ => Ok v | [] => Raise IndexError end)
  | lam_cdr, [VList l] => Some (Ok (VList (tail l)))
  | lam_cons, [v; VList l] => Some (Ok (VList (v :: l)))
  | py_len, [VList l] => Some (Ok (VInt (Z.of_nat (length l))))
  | lam_list, _ => Some (Ok (VList args))
  | lam_listp, [v] =>
      Some (Ok (VBool match v with VList _ => true | _ => false end))
  | op_not, [v] => Some (Ok (VBool (negb (truthy v))))
  | lam_nullp, [v] =>
      Some (Ok (VBool match v with VList [] => true | _ => false end))
  | lam_numberp, [_] => Some (Raise NameError)
  | py_callable, [v] => Some (Ok (VBool (callable v)))
  | lam_symbolp, [v] =>
      Some (Ok (VBool match v with VStr _ => true | _ => false end))
  | _, _ => None
  end.

(** A native call: spelled out above, or the host's next answer. *)
Definition call_native (b : builtin) (args : list val) : M val :=
  match spelled_out b args with
  | Some r => lift r
  | None =>
      fun st =>
        Some (native host (clock st) b args, mkState (heap st) (S (clock st)))
  end.

(** Iterating a value: lists and tuples give their elements, a [str] its
    characters; nothing else in the model is a sequence. *)
Definition iter_val (v : val) : outcome (list val) :=
  match v with
  | VList l => Ok l
  | VTuple l => Ok l
  | VStr s =>
      Ok (List.map (fun c => VStr (String c EmptyString)) (list_ascii_of_string s))
  | _ => Raise TypeError
  end.

(** [apply(f[, args[, kwargs]])], [call] being the call of a value.  No
    value of the model is a dictionary, so a third argument raises. *)
Definition apply_step (call : val -> list val -> M val) (args : list val) : M val :=
  match args with
  | [f] => call f []
  | [f; a] => l <- lift (iter_val a) ;; call f l
  | _ => raise TypeError
  end.

(** The argument tuples [map] builds: the [i]-th holds the [i]-th element
    of each sequence, [None] where a sequence is exhausted. *)
Definition map_rows (seqs : list (list val)) : list (list val) :=
  List.map (fun i => List.map (fun s => nth i s VNone) seqs)
    (seq 0 (fold_right Nat.max 0 (List.map (@length val) seqs))).

(** The sequences one after the other, the first that is none raising. *)
Fixpoint iter_all (vs : list val) : outcome (list (list val)) :=
  match vs with
  | [] => Ok []
  | v :: vs' =>
      match iter_val v with
      | Ok l =>
          match iter_all vs' with
          | Ok ls => Ok (l :: ls)
          | Raise e => Raise e
          end
      | Raise e => Raise e
      end
  end.

(** [map(f, seq, ...)] of Python 2: a list, built eagerly. *)
Definition map_step (call : val -> list val -> M val) (args : list val) : M val :=
  match args with
  | [] => raise TypeError
  | [_] => raise TypeError
  | [VNone; s] => l <- lift (iter_val s) ;; ret (VList l)
  | f :: seqs =>
      ls <- lift (iter_all seqs) ;;
      match f with
      | VNone => ret (VList (List.map VTuple (map_rows ls)))
      | _ => vs <- mapM (call f) (map_rows ls) ;; ret (VList vs)
      end
  end.

(** ** Evaluation *)

(** Calling [proc] on the unpacked [args]: [Procedure.__call__] for an instance of [Procedure],
    the native code for a built-in, [TypeError] for anything else.  [ev]
    is [eval] and [call] this very dispatch, for the callbacks of
    [apply] and [map]. *)
Definition call_step (ev : expr -> loc -> M val)
    (call : val -> list val -> M val) (proc : val) (args : list val) : M val :=
  match proc with
  | VProcedure parms body env =>
      e <- Env_init parms args (Some env) ;; ev body e
  | VBuiltin py_apply => apply_step call args
  | VBuiltin py_map => map_step call args
  | VBuiltin b => call_native b args
  | _ => raise TypeError
  end.

(** [x[0] == kw] *)
Definition is_keyword (x0 : expr) (kw : string) : bool :=
  match x0 with
  | Symbol s => String.eqb s kw
  | _ => false
  end.

(** [(_, exp) = x; return exp] *)
Definition eval_quote (x : list expr) : M val :=
  match x with
  | [_; exp] => ret (quoted exp)
  | _ => raise ValueError
  end.

(** [(_, test, conseq, alt) = x;
     exp = (conseq if eval(test, env) else alt); return eval(exp, env)] *)
Definition eval_if (ev : expr -> loc -> M val) (x : list expr) (env : loc) : M val :=
  match x with
  | [_; test; conseq; alt] =>
      t <- ev test env ;;
      ev (if truthy t then conseq else alt) env
  | _ => raise ValueError
  end.

(** [(_, var, exp) = x; env[var] = eval(exp, env)]: the right-hand side
    first, then the store; the function falls off its end and returns
    [None]. *)
Definition eval_define (ev : expr -> loc -> M val) (x : list expr) (env : loc) : M val :=
  match x with
  | [_; var; exp] =>
      v <- ev exp env ;;
      Env_setitem env var v ;;;
      ret VNone
  | _ => raise ValueError
  end.

(** [(_, var, exp) = x; env.find(var)[var] = eval(exp, env)]: the
    right-hand side first, then [find], then the store. *)
Definition eval_set (ev : expr -> loc -> M val) (fnd : expr -> loc -> M loc)
    (x : list expr) (env : loc) : M val :=
  match x with
  | [_; var; exp] =>
      v <- ev exp env ;;
      e <- fnd var env ;;
      Env_setitem e var v ;;;
      ret VNone
  | _ => raise ValueError
  end.

(** [(_, parms, body) = x; return Procedure(parms, body, env)] *)
Definition eval_lambda (x : list expr) (env : loc) : M val :=
  match x with
  | [_; parms; body] => ret (VProcedure parms body env)
  | _ => raise ValueError
  end.

(** [proc = eval(x[0], env); args = [eval(arg, env) for arg in x[1:]];
     return proc] called on the unpacked [args] *)
Definition eval_call (ev : expr -> loc -> M val)
    (call : val -> list val -> M val) (x : list expr) (env : loc) : M val :=
  match x with
  | x0 :: rest =>
      proc <- ev x0 env ;;
      args <- mapM (fun arg => ev arg env) rest ;;
      call proc args
  | [] => raise IndexError
  end.

(** The body of [eval(x, env)], clause by clause. *)
Definition eval_step (ev : expr -> loc -> M val)
    (call : val -> list val -> M val) (fnd : expr -> loc -> M loc)
    (x : expr) (env : loc) : M val :=
  match x with
  | Symbol _ => e <- fnd x env ;; Env_getitem e x
  | Lst l =>
      match l with
      | [] => raise IndexError
      | x0 :: _ =>
          if is_keyword x0 "quote" then eval_quote l
          else if is_keyword x0 "if" then eval_if ev l env
          else if is_keyword x0 "define" then eval_define ev l env
          else if is_keyword x0 "set!" then eval_set ev fnd l env
          else if is_keyword x0 "lambda" then eval_lambda l env
          else eval_call ev call l env
      end
  | _ => ret (quoted x)
  end.

(** [eval] and the call of a value, each nested call one unit of [fuel]
    deeper; [None] when the bound is reached (a computation that does not
    end, or that exhausts the stack). *)
Fixpoint eval (fuel : nat) (x : expr) (env : loc) : M val :=
  match fuel with
  | O => no_result
  | S fuel' => eval_step (eval fuel') (call fuel') (find fuel') x env
  end
with call (fuel : nat) (proc : val) (args : list val) : M val :=
  match fuel with
  | O => no_result
  | S fuel' => call_step (eval fuel') (call fuel') proc args
  end.

(** ** The global environment *)

(** The dictionary literal of [standard_env]. *)
Definition standard_table : list (string * val) :=
  [ ("+", VBuiltin op_add); ("-", VBuiltin op_sub);
    ("*", VBuiltin op_mul); ("/", VBuiltin op_div);
    (">", VBuiltin op_gt); ("<", VBuiltin op_lt);
    (">=", VBuiltin op_ge); ("<=", VBuiltin op_le); ("=", VBuiltin op_eq);
    ("abs", VBuiltin py_abs);
    ("append", VBuiltin op_add);
    ("apply", VBuiltin py_apply);
    ("begin", VBuiltin lam_begin);
    ("car", VBuiltin lam_car);
    ("cdr", VBuiltin lam_cdr);
    ("cons", VBuiltin lam_cons);
    ("eq?", VBuiltin op_is);
    ("equal?", VBuiltin op_eq);
    ("length", VBuiltin py_len);
    ("list", VBuiltin lam_list);
    ("list?", VBuiltin lam_listp);
    ("map", VBuiltin py_map);
    ("max", VBuiltin py_max);
    ("min", VBuiltin py_min);
    ("not", VBuiltin op_not);
    ("null?", VBuiltin lam_nullp);
    ("number?", VBuiltin lam_numberp);
    ("procedure?", VBuiltin py_callable);
    ("round", VBuiltin py_round);
    ("symbol?", VBuiltin lam_symbolp) ].

(** The dictionary [standard_env] builds: [vars(math)], then the table. *)
Definition standard_dict : pydict :=
  dict_update_str (dict_update_str [] (math_vars host)) standard_table.

(** [standard_env()]: [env = Env()], the two updates, [return env]. *)
Definition standard_env : M loc := alloc (mkEnv standard_dict None).

(** The state right after [global_env = standard_env()], with
    [global_env] the only [Env] object, and the reference to it.  (The
    module goes on to run its demonstration program, which defines
    [circle-area] there; the properties below start from the standard
    environment itself.) *)
Definition initial_state : state := mkState [mkEnv standard_dict None] 0.

Definition global_env : loc := 0.

End Interpreter.

(** ** A host to run programs on

    The closed examples below need one host.  This one has the names of
    the [math] module of CPython 2.7, reads no token as a [float], and
    answers [TypeError] to every native call left to it; none of the
    examples has a token that [float] accepts or reaches such a call. *)
Definition math_functions : list string :=
  ["acos"; "acosh"; "asin"; "asinh"; "atan"; "atan2"; "atanh"; "ceil";
   "copysign"; "cos"; "cosh"; "degrees"; "erf"; "erfc"; "exp"; "expm1";
   "fabs"; "factorial"; "floor"; "fmod"; "frexp"; "fsum"; "gamma"; "hypot";
   "isinf"; "isnan"; "ldexp"; "lgamma"; "log"; "log10"; "log1p"; "modf";
   "pow"; "radians"; "sin"; "sinh"; "sqrt"; "tan"; "tanh"; "trunc"].

Definition plain_host : runtime := {|
  float_of_token := fun _ => None;
  math_vars :=
    [("__name__", VStr "math"); ("__package__", VNone);
     ("__doc__",
      VStr ("This module is always available.  It provides access to the"
            ++ String "010"%char
                 "mathematical functions defined by the C standard."));
     ("pi", VFloat 0x1.921fb54442d18p+1%float);
     ("e", VFloat 0x1.5bf0a8b145769p+1%float)]
    ++ List.map (fun name => (name, VBuiltin (math_fn name))) math_functions;
  native := fun _ _ _ => Raise TypeError
|}.

(** ** The read-eval-print loop *)

(** [sep.join(l)] *)
Fixpoint join (sep : string) (l : list string) : string :=
  match l with
  | [] => EmptyString
  | [s] => s
  | s :: l' => s ++ sep ++ join sep l'
  end.


(** [str(n)] for an [int]: the decimal digits, after a [-] when negative. *)
Definition str_int (n : Z) : string := NilZero.string_of_int (Z.to_int n).

(** [schemestr(exp)].  [str_other] is [str] for the objects whose text
    the development does not spell out: floats, tuples, procedures and
    built-ins. *)
Fixpoint schemestr (str_other : val -> string) (exp : val) : string :=
  match exp with
  | VList l => "(" ++ join " " (List.map (schemestr str_other) l) ++ ")"
  | VInt n => str_int n
  | VStr s => s
  | VBool true => "True"
  | VBool false => "False"
  | VNone => "None"
  | _ => str_other exp
  end.

(** What [repl] does on the terminal: [raw_input] writes the prompt,
    [print] a line. *)
Inductive event : Type :=
| Prompt (text : string)
| Print (text : string).

(** [if val is not None: print(schemestr(val))] *)
Definition print_value (str_other : val -> string) (v : val) : list event :=
  match v with
  | VNone => []
  | _ => [Print (schemestr str_other v)]
  end.

(** [repl(prompt)], reading the lines of [input].  The loop has no exit:
    a run ends with the exception that escapes it, which is [EOFError]
    from [raw_input] when the input is used up.  The result is what was
    written, the exception and the state; [None] when an evaluation has no
    result within [fuel]. *)
Fixpoint repl (host : runtime) (str_other : val -> string) (fuel : nat)
    (prompt : string) (input : list string) (st : state)
  : option (list event * exn * state) :=
  match input with
  | [] => Some ([Prompt prompt], OtherError "EOFError", st)
  | line :: input' =>
      match parse host line with
      | None => None
      | Some (Raise e) => Some ([Prompt prompt], e, st)
      | Some (Ok x) =>
          match eval host fuel x global_env st with
          | None => None
          | Some (Raise e, st1) => Some ([Prompt prompt], e, st1)
          | Some (Ok v, st1) =>
              match repl host str_other fuel prompt input' st1 with
              | Some (out, e, st2) =>
                  Some (Prompt prompt :: print_value str_other v ++ out, e, st2)
              | None => None
              end
          end
      end
  end.

(** ** Vocabulary of the properties *)

(** What the loop of [tokenize] makes of one character. *)
Definition pad (c : ascii) : string :=
  if existsb (Ascii.eqb c) brackets then spaced c else String c EmptyString.

(** An angle bracket in a token is the whole token. *)
Definition angle_alone (t : string) : Prop :=
  (Str.contains "<" t = true -> t = "<") /\
  (Str.contains ">" t = true -> t = ">").

(** The last entry for [k] in a table with [str] keys. *)
Fixpoint table_get (k : string) (table : list (string * val)) : option val :=
  match table with
  | [] => None
  | (k', v) :: table' =>
      match table_get k table' with
      | Some w => Some w
      | None => if String.eqb k' k then Some v else None
      end
  end.

(** A keyword in front. *)
Definition is_special (x0 : expr) : bool :=
  is_keyword x0 "quote" || is_keyword x0 "if" || is_keyword x0 "define" ||
  is_keyword x0 "set!" || is_keyword x0 "lambda".

(** [chain h env ls]: [ls] lists the frames from [env] outwards, up to
    the frame whose [outer] is [None]. *)
Inductive chain (h : list Env) : loc -> list loc -> Prop :=
| chain_top l e :
    h !! l = Some e -> outer e = None -> chain h l [l]
| chain_up l e o ls :
    h !! l = Some e -> outer e = Some o -> chain h o ls -> chain h l (l :: ls).

(** [var in h[l]] *)
Definition bound_in (h : list Env) (var : expr) (l : loc) : bool :=
  match h !! l with
  | Some e => dict_mem var (dict e)
  | None => false
  end.

(** The first frame of [ls] that binds [var]. *)
Definition innermost (h : list Env) (var : expr) (ls : list loc) : option loc :=
  List.find (bound_in h var) ls.

(** Truth as the specification words it: anything other than false, zero
    or the empty list. *)
Definition truthy_as_specified (v : val) : bool :=
  match v with
  | VBool b => b
  | VInt n => negb (Z.eqb n 0)
  | VFloat f => negb (PrimFloat.eqb f 0)
  | VList [] => false
  | _ => true
  end.

(** [m'] has every result that [m] has. *)
Definition extends {A} (m m' : M A) : Prop :=
  forall st r, m st = Some r -> m' st = Some r.

(** [(define add (lambda (a b) (+ a b)))] and [(add 2 3)], as the reader
    returns them. *)
Definition define_add : expr :=
  Lst [Symbol "define"; Symbol "add";
       Lst [Symbol "lambda"; Lst [Symbol "a"; Symbol "b"];
            Lst [Symbol "+"; Symbol "a"; Symbol "b"]]].

Definition add_2_3 : expr := Lst [Symbol "add"; Int 2; Int 3].

(** The procedure [add] evaluates to, and the state once it is defined. *)
Definition add_procedure : val :=
  VProcedure (Lst [Symbol "a"; Symbol "b"])
    (Lst [Symbol "+"; Symbol "a"; Symbol "b"]) global_env.

Definition add_defined (host : runtime) : state :=
  mkState
    [mkEnv (dict_set (Symbol "add") add_procedure (standard_dict host)) None] 0.

(** [(define f (lambda () y))], [(define y 7)] and [(f)]. *)
Definition define_f : expr :=
  Lst [Symbol "define"; Symbol "f"; Lst [Symbol "lambda"; Lst []; Symbol "y"]].

Definition define_y : expr := Lst [Symbol "define"; Symbol "y"; Int 7].

Definition call_f : expr := Lst [Symbol "f"].

(** [(if (> 3 2) 1 2)], as the reader returns it. *)
Definition if_gt_3_2 : expr :=
  Lst [Symbol "if"; Lst [Symbol ">"; Int 3; Int 2]; Int 1; Int 2].

(** [((lambda (a b) a) 1)]: two parameters, one argument. *)
Definition call_with_one_argument : expr :=
  Lst [Lst [Symbol "lambda"; Lst [Symbol "a"; Symbol "b"]; Symbol "a"]; Int 1].

(** [(define x 1)], [(if (define x 1) 10 20)] and
    [(set! x (define x 1))]. *)
Definition define_x_1 : expr := Lst [Symbol "define"; Symbol "x"; Int 1].

Definition if_define : expr := Lst [Symbol "if"; define_x_1; Int 10; Int 20].

Definition set_define : expr := Lst [Symbol "set!"; Symbol "x"; define_x_1].

(** [(define a (set! b 1))] *)
Definition define_a_set_b : expr :=
  Lst [Symbol "define"; Symbol "a"; Lst [Symbol "set!"; Symbol "b"; Int 1]].

(** A chain of two frames: frame [0] binds [b] to [0]; frame [1] is
    empty and has frame [0] as [outer]. *)
Definition two_frames : state :=
  mkState [mkEnv [(Symbol "b", VInt 0)] None; mkEnv [] (Some 0)] 0.

(** [c in "()<>"] *)
Definition is_bracket (c : ascii) : bool := existsb (Ascii.eqb c) brackets.

(** A character of a word: neither white space nor a bracket. *)
Definition word_char (c : ascii) : bool :=
  negb (Str.isspace c) && negb (is_bracket c).

(** Every character of [s] passes [p]. *)
Fixpoint all_chars (p : ascii -> bool) (s : string) : bool :=
  match s with
  | EmptyString => true
  | String c s' => p c && all_chars p s'
  end.

(** The shape of a token: not empty, free of white space, and either one
    bracket or free of brackets. *)
Definition token_shape (t : string) : Prop :=
  t <> EmptyString /\
  all_chars (fun c => negb (Str.isspace c)) t = true /\
  (all_chars (fun c => negb (is_bracket c)) t = true \/
   exists b, is_bracket b = true /\ t = String b EmptyString).

(** The value of a decimal numeral read after [acc]. *)
Fixpoint uint_value (acc : Z) (d : Decimal.uint) : Z :=
  match d with
  | Decimal.Nil => acc
  | Decimal.D0 d => uint_value (10 * acc + 0) d
  | Decimal.D1 d => uint_value (10 * acc + 1) d
  | Decimal.D2 d => uint_value (10 * acc + 2) d
  | Decimal.D3 d => uint_value (10 * acc + 3) d
  | Decimal.D4 d => uint_value (10 * acc + 4) d
  | Decimal.D5 d => uint_value (10 * acc + 5) d
  | Decimal.D6 d => uint_value (10 * acc + 6) d
  | Decimal.D7 d => uint_value (10 * acc + 7) d
  | Decimal.D8 d => uint_value (10 * acc + 8) d
  | Decimal.D9 d => uint_value (10 * acc + 9) d
  end.


(** The token lists that spell one expression: a token that is no
    parenthesis spells the atom it classifies as; an open parenthesis,
    the spellings of zero or more expressions and a close parenthesis
    spell their list. *)
Inductive reads_as (host : runtime) : list string -> expr -> Prop :=
| reads_atom token :
    token <> "(" -> token <> ")" -> reads_as host [token] (atom host token)
| reads_lst ts xs :
    reads_items host ts xs -> reads_as host ("(" :: ts ++ [")"]) (Lst xs)
with reads_items (host : runtime) : list string -> list expr -> Prop :=
| reads_nil : reads_items host [] []
| reads_cons ts x tss xs :
    reads_as host ts x -> reads_items host tss xs ->
    reads_items host (ts ++ tss) (x :: xs).

Scheme reads_as_mut := Induction for reads_as Sort Prop
  with reads_items_mut := Induction for reads_items Sort Prop.
Combined Scheme reads_mutind from reads_as_mut, reads_items_mut.


(** No [float] in the expression. *)
Fixpoint float_free (x : expr) : bool :=
  match x with
  | Float _ => false
  | Lst l => forallb float_free l
  | _ => true
  end.

(** The tokens of the text [schemestr] writes for a float-free
    expression. *)
Fixpoint tokens_of (x : expr) : list string :=
  match x with
  | Int n => [str_int n]
  | Symbol s => [s]
  | Lst l => "(" :: flat_map tokens_of l ++ [")"]
  | Float _ => []
  end.

(** An expression whose symbols are tokens that read as themselves. *)
Fixpoint printable (host : runtime) (x : expr) : Prop :=
  match x with
  | Int _ => True
  | Float _ => False
  | Symbol s => token_shape s /\ s <> "(" /\ s <> ")" /\ atom host s = Symbol s
  | Lst l =>
      (fix all (l : list expr) : Prop :=
         match l with
         | [] => True
         | y :: l' => printable host y /\ all l'
         end) l
  end.

(** What follows a token lets it end: nothing, white space or a
    bracket. *)
Definition boundary (rest : string) : Prop :=
  match rest with
  | EmptyString => True
  | String c _ => Str.isspace c = true \/ is_bracket c = true
  end.


(** The parameter list cannot be paired with the arguments: it is a
    number, or one of its elements that gets an argument is a list. *)
Definition bad_parms (parms : expr) (args : list val) : Prop :=
  match parms with
  | Int _ | Float _ => True
  | Symbol _ => False
  | Lst names =>
      exists i x v, names !! i = Some x /\ args !! i = Some v /\ hashable x = false
  end.


(** A frame after some steps: the same [outer], and every name it bound
    still bound. *)
Definition frame_kept (e e' : Env) : Prop :=
  outer e' = outer e /\
  forall k, dict_mem k (dict e) = true -> dict_mem k (dict e') = true.

(** A state after some steps: every frame is kept, at its place. *)
Definition heap_grows (st st' : state) : Prop :=
  forall (l : loc) e, heap st !! l = Some e ->
              exists e', heap st' !! l = Some e' /\ frame_kept e e'.

(** Every run of [m] makes the heap grow. *)
Definition keeps {A} (m : M A) : Prop :=
  forall st r st', m st = Some (r, st') -> heap_grows st st'.


(** [accepted lines st out st']: every line of [lines] is read and
    evaluated without an exception, from the state [st] to [st'], and
    [out] is what that writes. *)
Inductive accepted (host : runtime) (str_other : val -> string) (fuel : nat)
    (prompt : string) : list string -> state -> list event -> state -> Prop :=
| accepted_nil st : accepted host str_other fuel prompt [] st [] st
| accepted_cons line lines x v st st1 out st2 :
    parse host line = Some (Ok x) ->
    eval host fuel x global_env st = Some (Ok v, st1) ->
    accepted host str_other fuel prompt lines st1 out st2 ->
    accepted host str_other fuel prompt (line :: lines) st
      (Prompt prompt :: print_value str_other v ++ out) st2.


(** [str] for the objects whose text the examples never print. *)
Definition plain_str (v : val) : string := "<object>".

(** The state after [(define x 5)] in the standard environment of
    [plain_host]. *)
Definition x_defined : state :=
  mkState [mkEnv (dict_set (Symbol "x") (VInt 5) (standard_dict plain_host)) None] 0.

(** The state after [(define a (set! b 1))] in the inner frame of
    [two_frames]. *)
Definition two_frames_after : state :=
  mkState [mkEnv [(Symbol "b", VInt 1)] None;
           mkEnv [(Symbol "a", VNone)] (Some 0)] 0.

(** * Properties *)

(** ** Dictionaries *)

Lemma key_eqb_symbol_refl s : key_eqb (Symbol s) (Symbol s) = true.
Proof. apply String.eqb_refl. Qed.

Lemma dict_get_set_eq k v d :
  key_eqb k k = true -> dict_get k (dict_set k v d) = Some v.
Proof.
  intros Hk. induction d as [|[k' v'] d IH]; simpl.
  - rewrite Hk. reflexivity.
  - destruct (key_eqb k' k) eqn:E; simpl; rewrite E; [reflexivity|exact IH].
Qed.

Lemma dict_get_set_symbol_ne s t v d :
  s <> t -> dict_get (Symbol t) (dict_set (Symbol s) v d) = dict_get (Symbol t) d.
Proof.
  intros Hne. induction d as [|[k' v'] d IH]; simpl.
  - destruct (String.eqb s t) eqn:E; [apply String.eqb_eq in E; contradiction|reflexivity].
  - destruct (key_eqb k' (Symbol s)) eqn:E; simpl.
    + destruct k'; simpl in E; try discriminate.
      apply String.eqb_eq in E; subst s0.
      destruct (String.eqb s t) eqn:E'; [apply String.eqb_eq in E'; contradiction|].
      simpl. rewrite E'. reflexivity.
    + rewrite IH. reflexivity.
Qed.

Lemma dict_get_set_symbol s t v d :
  dict_get (Symbol t) (dict_set (Symbol s) v d) =
  if String.eqb s t then Some v else dict_get (Symbol t) d.
Proof.
  destruct (String.eqb s t) eqn:E.
  - apply String.eqb_eq in E; subst. apply dict_get_set_eq, key_eqb_symbol_refl.
  - apply dict_get_set_symbol_ne. intros ->. rewrite String.eqb_refl in E. discriminate.
Qed.

Lemma dict_update_str_get table : forall d k,
  dict_get (Symbol k) (dict_update_str d table) =
  match table_get k table with
  | Some v => Some v
  | None => dict_get (Symbol k) d
  end.
Proof.
  induction table as [|[k' v] table IH]; intros d k; [reflexivity|].
  unfold dict_update_str in *. simpl. rewrite IH.
  destruct (table_get k table); [reflexivity|].
  rewrite dict_get_set_symbol. destruct (String.eqb k' k); reflexivity.
Qed.

Lemma standard_dict_get host k v :
  table_get k standard_table = Some v ->
  dict_get (Symbol k) (standard_dict host) = Some v.
Proof.
  intros H. unfold standard_dict. rewrite dict_update_str_get, H. reflexivity.
Qed.


Lemma table_get_not_in n names (args : list val) :
  ~ In n names -> table_get n (combine names args) = None.
Proof.
  revert args. induction names as [|a names IH]; intros args Hn; [reflexivity|].
  destruct args as [|v args]; [reflexivity|]. simpl.
  rewrite IH by (intros H; apply Hn; right; exact H).
  destruct (String.eqb a n) eqn:E; [|reflexivity].
  apply String.eqb_eq in E. exfalso. apply Hn. left. exact E.
Qed.

Lemma combine_lookup {A B} (xs : list A) (ys : list B) i x y :
  combine xs ys !! i = Some (x, y) <-> xs !! i = Some x /\ ys !! i = Some y.
Proof.
  revert ys i. induction xs as [|a xs IH]; intros [|b ys] [|i]; simpl;
    try (split; [discriminate|intros [? ?]; discriminate]).
  - split; [intros [= -> ->]; auto|intros [[= ->] [= ->]]; reflexivity].
  - apply IH.
Qed.

(** A table has no entry for a name it does not list. *)
Lemma table_get_None n (t : list (string * val)) :
  table_get n t = None <-> forall j w, t !! j <> Some (n, w).
Proof.
  induction t as [|[k v] t IH]; simpl.
  - split; [intros _ j w; destruct j; discriminate|reflexivity].
  - destruct (table_get n t) as [u|] eqn:E.
    + split; [discriminate|]. intros H.
      apply IH. intros j w Hj. apply (H (S j) w Hj).
    + destruct (String.eqb_spec k n) as [->|Hne].
      * split; [discriminate|]. intros H. exfalso. apply (H 0 v). reflexivity.
      * split; [|reflexivity]. intros _ [|j] w.
        -- simpl. intros [= Hk _]. contradiction.
        -- apply (proj1 IH eq_refl j w).
Qed.

(** The entry of a table for a name is the last one listed for it. *)
Lemma table_get_last n v (t : list (string * val)) :
  table_get n t = Some v <->
  exists i, t !! i = Some (n, v) /\ forall j w, i < j -> t !! j <> Some (n, w).
Proof.
  revert v. induction t as [|[k u] t IH]; intros v; simpl.
  - split; [discriminate|]. intros (i & Hi & _). destruct i; discriminate.
  - destruct (table_get n t) as [w|] eqn:E.
    + split.
      * intros [= ->]. destruct (proj1 (IH v) eq_refl) as (i & Hi & Hlast).
        exists (S i). split; [exact Hi|]. intros [|j] w' Hj; [lia|].
        apply Hlast. lia.
      * intros (i & Hi & Hlast). destruct i as [|i].
        -- exfalso. destruct (proj1 (IH w) eq_refl) as (i' & Hi' & _).
           apply (Hlast (S i') w); [lia|exact Hi'].
        -- f_equal. assert (Hv : Some w = Some v); [|congruence].
           apply IH. exists i. split; [exact Hi|].
           intros j w' Hj. apply (Hlast (S j) w'). lia.
    + pose proof (proj1 (table_get_None n t) E) as Hnone.
      destruct (String.eqb_spec k n) as [->|Hne].
      * split.
        -- intros [= ->]. exists 0. split; [reflexivity|].
           intros [|j] w Hj; [lia|]. apply Hnone.
        -- intros (i & Hi & _). destruct i as [|i].
           ++ simpl in Hi. congruence.
           ++ exfalso. apply (Hnone i v Hi).
      * split; [discriminate|]. intros (i & Hi & _). destruct i as [|i].
        -- simpl in Hi. inversion Hi. contradiction.
        -- exfalso. apply (Hnone i v Hi).
Qed.

(** The table of [zip]: a name has the argument at the last position,
    among those that have an argument, where it is listed. *)
Lemma table_get_combine_last names (args : list val) n v :
  table_get n (combine names args) = Some v <->
  exists i, names !! i = Some n /\ args !! i = Some v /\
            forall j, i < j -> j < length args -> names !! j <> Some n.
Proof.
  rewrite table_get_last. split.
  - intros (i & Hi & Hlast). apply combine_lookup in Hi. destruct Hi as [Hn Hv].
    exists i. split; [exact Hn|]. split; [exact Hv|].
    intros j Hij Hj Hnj.
    destruct (lookup_lt_is_Some_2 args j Hj) as [w Hw].
    apply (Hlast j w Hij). apply combine_lookup. split; assumption.
  - intros (i & Hn & Hv & Hlast). exists i.
    split; [apply combine_lookup; split; assumption|].
    intros j w Hij Hj. apply combine_lookup in Hj. destruct Hj as [Hnj Hw].
    apply (Hlast j Hij); [eapply lookup_lt_Some, Hw|exact Hnj].
Qed.

Lemma table_get_combine_None names (args : list val) n :
  table_get n (combine names args) = None <->
  forall i, i < length args -> names !! i <> Some n.
Proof.
  rewrite table_get_None. split.
  - intros H i Hi Hn. destruct (lookup_lt_is_Some_2 args i Hi) as [w Hw].
    apply (H i w). apply combine_lookup. split; assumption.
  - intros H j w Hj. apply combine_lookup in Hj. destruct Hj as [Hn Hw].
    apply (H j); [eapply lookup_lt_Some, Hw|exact Hn].
Qed.

(** With distinct names, the table of [zip] pairs the [i]-th name with
    the [i]-th argument, and with nothing when the arguments run out. *)
Lemma table_get_combine names : forall (args : list val) i n,
  List.NoDup names -> names !! i = Some n ->
  table_get n (combine names args) = args !! i.
Proof.
  induction names as [|a names IH]; intros args i n Hnd Hi; [discriminate|].
  inversion Hnd as [|? ? Ha Hnd']; subst.
  destruct args as [|v args]; [destruct i; reflexivity|].
  simpl. destruct i as [|i]; simpl in *.
  - inversion Hi; subst. rewrite table_get_not_in by exact Ha.
    rewrite String.eqb_refl. reflexivity.
  - rewrite (IH args i n Hnd' Hi).
    destruct (args !! i) eqn:E; [reflexivity|].
    destruct (String.eqb a n) eqn:E'; [|reflexivity].
    apply String.eqb_eq in E'; subst. exfalso. apply Ha.
    apply list_elem_of_In. eapply list_elem_of_lookup_2, Hi.
Qed.

Lemma combine_symbols names (args : list val) :
  combine (List.map Symbol names) args
  = List.map (fun nv => (Symbol (fst nv), snd nv)) (combine names args).
Proof.
  revert args. induction names as [|a names IH]; intros [|v args];
    simpl; try reflexivity.
  rewrite IH. reflexivity.
Qed.

Lemma dict_update_symbols pairs : forall d,
  dict_update d (List.map (fun nv : string * val => (Symbol (fst nv), snd nv)) pairs)
  = Ok (dict_update_str d pairs).
Proof.
  induction pairs as [|[k v] pairs IH]; intros d; [reflexivity|].
  simpl. rewrite IH. reflexivity.
Qed.

(** Every key of a dictionary built from a table is a name of the table. *)
Lemma dict_update_str_keys table : forall d k v,
  dict_get k (dict_update_str d table) = Some v ->
  (exists n, k = Symbol n /\ In n (List.map fst table)) \/ is_Some (dict_get k d).
Proof.
  induction table as [|[k' v'] table IH]; intros d k v H.
  - right. eexists. exact H.
  - unfold dict_update_str in H. simpl in H. apply IH in H.
    destruct H as [(n & -> & Hn)|[w Hw]].
    + left. exists n. split; [reflexivity|]. right. exact Hn.
    + destruct k as [z|f|t|l].
      * right. revert Hw. clear. induction d as [|[k0 v0] d IHd]; simpl.
        { discriminate. }
        destruct (key_eqb k0 (Symbol k')) eqn:E; simpl.
        { destruct k0; try discriminate. simpl. eauto. }
        destruct (key_eqb k0 (Int z)); eauto.
      * right. revert Hw. clear. induction d as [|[k0 v0] d IHd]; simpl.
        { discriminate. }
        destruct (key_eqb k0 (Symbol k')) eqn:E; simpl.
        { destruct k0; try discriminate. simpl. eauto. }
        destruct (key_eqb k0 (Float f)); eauto.
      * rewrite dict_get_set_symbol in Hw.
        destruct (String.eqb k' t) eqn:E.
        { apply String.eqb_eq in E; subst. left. exists t. split; [reflexivity|].
          left. reflexivity. }
        right. eexists. exact Hw.
      * right. revert Hw. clear. induction d as [|[k0 v0] d IHd]; simpl.
        { discriminate. }
        destruct (key_eqb k0 (Symbol k')) eqn:E; simpl.
        { destruct k0; try discriminate. simpl. eauto. }
        destruct (key_eqb k0 (Lst l)); eauto.
Qed.

Lemma dict_get_set_symbol_other s k v d :
  k <> Symbol s -> dict_get k (dict_set (Symbol s) v d) = dict_get k d.
Proof.
  intros Hne.
  assert (Hk : key_eqb (Symbol s) k = false).
  { destruct k as [z|f|t|l]; try reflexivity. simpl.
    destruct (String.eqb s t) eqn:E; [|reflexivity].
    apply String.eqb_eq in E; subst. contradiction. }
  induction d as [|[k0 v0] d IH]; cbn [dict_get dict_set].
  - rewrite Hk. reflexivity.
  - destruct (key_eqb k0 (Symbol s)) eqn:E; cbn [dict_get dict_set].
    + destruct k0 as [z|f|t|l]; try discriminate.
      simpl in E. apply String.eqb_eq in E; subst t. rewrite Hk. reflexivity.
    + rewrite IH. reflexivity.
Qed.

(** ** The tokenizer *)

Lemma spaced_out_cons c s : spaced_out (String c s) = (pad c ++ spaced_out s)%string.
Proof.
  unfold spaced_out, pad, brackets; simpl.
  destruct (Ascii.eqb c "(") eqn:E1.
  { apply Ascii.eqb_eq in E1; subst c; reflexivity. }
  destruct (Ascii.eqb c ")") eqn:E2.
  { apply Ascii.eqb_eq in E2; subst c; reflexivity. }
  destruct (Ascii.eqb c "<") eqn:E3.
  { apply Ascii.eqb_eq in E3; subst c; reflexivity. }
  destruct (Ascii.eqb c ">") eqn:E4.
  { apply Ascii.eqb_eq in E4; subst c; reflexivity. }
  simpl. rewrite E2. simpl. rewrite E3. simpl. rewrite E4. reflexivity.
Qed.

Lemma contains_app c s t :
  Str.contains c (s ++ t)%string = Str.contains c s || Str.contains c t.
Proof.
  induction s as [|d s IH]; simpl; [reflexivity|].
  rewrite IH. apply orb_assoc.
Qed.

Lemma flush_angle_alone w :
  Str.contains "<" w = false -> Str.contains ">" w = false ->
  Forall angle_alone (Str.flush w).
Proof.
  intros H1 H2. destruct w; simpl; constructor; [|constructor].
  split; intros H; congruence.
Qed.

Lemma split_from_angle_alone s : forall w,
  Str.contains "<" w = false -> Str.contains ">" w = false ->
  Forall angle_alone (Str.split_from w (spaced_out s)).
Proof.
  induction s as [|c s IH]; intros w H1 H2.
  - apply flush_angle_alone; assumption.
  - rewrite spaced_out_cons. unfold pad, brackets. simpl existsb.
    assert (Hb : forall b : ascii, b = "("%char \/ b = ")"%char \/ b = "<"%char \/ b = ">"%char ->
      Forall angle_alone (Str.split_from w (spaced b ++ spaced_out s)%string)).
    { intros b Hb. 
      assert (Hs : Str.split_from w (spaced b ++ spaced_out s)%string
                   = Str.flush w ++ [String b EmptyString] ++ Str.split_from EmptyString (spaced_out s)).
      { destruct Hb as [->|[->|[->| ->]]]; reflexivity. }
      rewrite Hs. apply Forall_app. split; [apply flush_angle_alone; assumption|].
      apply Forall_app. split; [|apply IH; reflexivity].
      constructor; [|constructor].
      destruct Hb as [->|[->|[->| ->]]]; split; simpl; intros; congruence. }
    destruct (Ascii.eqb c "(") eqn:E1.
    { apply Ascii.eqb_eq in E1; subst c. apply Hb; tauto. }
    destruct (Ascii.eqb c ")") eqn:E2.
    { apply Ascii.eqb_eq in E2; subst c. apply Hb; tauto. }
    destruct (Ascii.eqb c "<") eqn:E3.
    { apply Ascii.eqb_eq in E3; subst c. apply Hb; tauto. }
    destruct (Ascii.eqb c ">") eqn:E4.
    { apply Ascii.eqb_eq in E4; subst c. apply Hb; tauto. }
    simpl. destruct (Str.isspace c).
    + apply Forall_app. split; [apply flush_angle_alone; assumption|].
      apply IH; reflexivity.
    + apply IH; rewrite contains_app; simpl.
      * rewrite H1, E3. reflexivity.
      * rewrite H2, E4. reflexivity.
Qed.

Lemma tokenize_angle_alone s : Forall angle_alone (tokenize s).
Proof. apply (split_from_angle_alone s EmptyString); reflexivity. Qed.

(** C8.  Every token that contains the character [<] or [>] is exactly
    that one-character token: no text gives the token [>=] or [<=]
    (the text [(>= a b)] has the tokens [>] and [=]), although the
    standard environment binds both names to the comparison built-ins. *)
Theorem tokenize_isolates_angle_brackets (host : runtime) (s : string) :
  Forall angle_alone (tokenize s) /\
  ~ In ">=" (tokenize s) /\ ~ In "<=" (tokenize s) /\
  tokenize "(>= a b)" = ["("; ">"; "="; "a"; "b"; ")"] /\
  dict_get (Symbol ">=") (standard_dict host) = Some (VBuiltin op_ge) /\
  dict_get (Symbol "<=") (standard_dict host) = Some (VBuiltin op_le).
Proof.
  assert (H := tokenize_angle_alone s).
  rewrite List.Forall_forall in H.
  split; [|split; [|split; [|split; [reflexivity|split]]]].
  - apply tokenize_angle_alone.
  - intros Hin. apply H in Hin. destruct Hin as [_ Hin].
    specialize (Hin eq_refl). discriminate.
  - intros Hin. apply H in Hin. destruct Hin as [Hin _].
    specialize (Hin eq_refl). discriminate.
  - apply standard_dict_get. reflexivity.
  - apply standard_dict_get. reflexivity.
Qed.

(** ** The reader *)

Section Reader.
Variable host : runtime.

Lemma read_from_tokens_S fuel tokens :
  read_from_tokens host (S fuel) tokens =
  match tokens with
  | [] => Some (Raise (SyntaxError "unexpected EOF while reading"), [])
  | token :: tokens' =>
      if String.eqb "(" token then read_while host fuel [] tokens'
      else if String.eqb ")" token then
        Some (Raise (SyntaxError "unexpected )"), tokens')
      else Some (Ok (atom host token), tokens')
  end.
Proof. reflexivity. Qed.

Lemma read_while_S fuel L tokens :
  read_while host (S fuel) L tokens =
  match tokens with
  | [] => Some (Raise IndexError, [])
  | t :: rest =>
      if negb (String.eqb t ")") then
        match read_from_tokens host fuel tokens with
        | Some (Ok x, tokens') => read_while host fuel (L ++ [x]) tokens'
        | Some (Raise e, tokens') => Some (Raise e, tokens')
        | None => None
        end
      else Some (Ok (Lst L), rest)
  end.
Proof. reflexivity. Qed.

(** The reader returns a suffix of what it was given, and a strictly
    shorter one when it returns an expression. *)
Lemma read_shrinks fuel :
  (forall tokens r rest,
      read_from_tokens host fuel tokens = Some (r, rest) ->
      length rest <= length tokens /\
      (forall x, r = Ok x -> length rest < length tokens)) /\
  (forall L tokens r rest,
      read_while host fuel L tokens = Some (r, rest) ->
      length rest <= length tokens /\
      (forall x, r = Ok x -> length rest < length tokens)).
Proof.
  induction fuel as [|fuel [IHr IHw]]; [split; intros; discriminate|].
  split.
  - intros tokens r rest H. rewrite read_from_tokens_S in H.
    destruct tokens as [|token tokens'].
    { inversion H; subst; simpl; split; [lia|discriminate]. }
    destruct (String.eqb "(" token).
    { apply IHw in H. simpl. destruct H as [H1 H2]. split; lia. }
    destruct (String.eqb ")" token); inversion H; subst; simpl; split;
      solve [lia | discriminate | intros; lia].
  - intros L tokens r rest H. rewrite read_while_S in H.
    destruct tokens as [|t tokens'].
    { inversion H; subst; simpl; split; [lia|discriminate]. }
    destruct (negb (String.eqb t ")")).
    + destruct (read_from_tokens host fuel (t :: tokens')) as [[[x|e] rest']|] eqn:E;
        [| |discriminate].
      * apply IHr in E. destruct E as [_ E]. specialize (E x eq_refl).
        apply IHw in H. destruct H as [H1 H2]. split; [lia|].
        intros y Hy. specialize (H2 y Hy). lia.
      * inversion H; subst. apply IHr in E. destruct E as [E _].
        split; [exact E|discriminate].
    + inversion H; subst; simpl; split; [lia|intros; lia].
Qed.

(** [read_fuel] is enough: the reader always has a result. *)
Lemma read_fuel_enough_aux fuel :
  (forall tokens, 2 * length tokens < fuel ->
      is_Some (read_from_tokens host fuel tokens)) /\
  (forall L tokens, 2 * length tokens + 1 < fuel ->
      is_Some (read_while host fuel L tokens)).
Proof.
  induction fuel as [|fuel [IHr IHw]]; [split; intros; lia|].
  split.
  - intros tokens H. rewrite read_from_tokens_S.
    destruct tokens as [|token tokens']; [eexists; reflexivity|].
    simpl in H.
    destruct (String.eqb "(" token); [apply IHw; lia|].
    destruct (String.eqb ")" token); eexists; reflexivity.
  - intros L tokens H. rewrite read_while_S.
    destruct tokens as [|t tokens']; [eexists; reflexivity|].
    simpl in H.
    destruct (negb (String.eqb t ")")); [|eexists; reflexivity].
    destruct (IHr (t :: tokens')) as [[r rest] E]; [simpl; lia|].
    rewrite E. destruct r as [x|e]; [|eexists; reflexivity].
    apply read_shrinks in E. destruct E as [_ E]. specialize (E x eq_refl).
    simpl in E. apply IHw. lia.
Qed.

Lemma read_fuel_enough tokens :
  is_Some (read_from_tokens host (read_fuel tokens) tokens).
Proof. apply read_fuel_enough_aux. unfold read_fuel. lia. Qed.

Lemma parse_total program : is_Some (parse host program).
Proof.
  unfold parse. destruct (read_fuel_enough (tokenize program)) as [r E].
  rewrite E. eexists; reflexivity.
Qed.

(** More fuel never changes a result. *)
Lemma read_fuel_mono fuel :
  (forall tokens r, read_from_tokens host fuel tokens = Some r ->
      read_from_tokens host (S fuel) tokens = Some r) /\
  (forall L tokens r, read_while host fuel L tokens = Some r ->
      read_while host (S fuel) L tokens = Some r).
Proof.
  induction fuel as [|fuel [IHr IHw]]; [split; intros; discriminate|].
  split.
  - intros tokens r H. rewrite read_from_tokens_S in H.
    rewrite read_from_tokens_S.
    destruct tokens as [|token tokens']; [exact H|].
    destruct (String.eqb "(" token); [apply IHw; exact H|exact H].
  - intros L tokens r H. rewrite read_while_S in H. rewrite read_while_S.
    destruct tokens as [|t tokens']; [exact H|].
    destruct (negb (String.eqb t ")")); [|exact H].
    destruct (read_from_tokens host fuel (t :: tokens')) as [[[x|e] rest']|] eqn:E;
      [| |discriminate]; rewrite (IHr _ _ E); [apply IHw|]; exact H.
Qed.

(** Inside an open list the reader only ever fails on [tokens[0]]: the
    loop looks at the next token before it calls the reader again, so the
    reader's own checks are never reached there. *)
Lemma read_while_raises fuel : forall L tokens e rest,
  read_while host fuel L tokens = Some (Raise e, rest) -> e = IndexError /\ rest = [].
Proof.
  induction fuel as [fuel IH] using lt_wf_ind.
  intros L tokens e rest H. destruct fuel as [|fuel]; [discriminate|].
  rewrite read_while_S in H. destruct tokens as [|t tokens']; [inversion H; auto|].
  destruct (String.eqb t ")") eqn:Et; simpl negb in H; cbv iota in H; [discriminate|].
  destruct fuel as [|fuel]; [discriminate|]. rewrite read_from_tokens_S in H.
  rewrite String.eqb_sym in Et.
  destruct (String.eqb "(" t).
  - destruct (read_while host fuel [] tokens') as [[[x|e'] rest']|] eqn:E; [| |discriminate].
    + eapply (IH (S fuel)); [lia|exact H].
    + inversion H; subst. eapply (IH fuel); [lia|exact E].
  - rewrite Et in H. eapply (IH (S fuel)); [lia|exact H].
Qed.


(** The reader's own error for an end of input is only ever raised for
    an empty token list. *)
Lemma read_eof_only_when_empty fuel tokens rest :
  read_from_tokens host fuel tokens
  = Some (Raise (SyntaxError "unexpected EOF while reading"), rest) ->
  tokens = [].
Proof.
  destruct fuel as [|fuel]; [discriminate|]. rewrite read_from_tokens_S.
  destruct tokens as [|token tokens']; [reflexivity|].
  destruct (String.eqb "(" token).
  - intros H. apply read_while_raises in H. destruct H as [H _]. discriminate.
  - destruct (String.eqb ")" token); discriminate.
Qed.

(** C2.  On tokens that open a list, the reader either returns or raises
    [IndexError] with every token consumed: the loop indexes [tokens[0]]
    before it calls the reader, so an input that ends inside a list never
    reaches the [SyntaxError] for an unexpected end, which is raised for
    the empty token list only.  For the tokens ['('] ['1'] the outcome is
    [IndexError]. *)
Theorem read_open_list_raises_IndexError (tokens : list string) :
  match read_from_tokens host (read_fuel ("(" :: tokens)) ("(" :: tokens) with
  | Some (Raise e, rest) => e = IndexError /\ rest = []
  | Some (Ok _, _) => True
  | None => False
  end /\
  (forall fuel tks rest,
      read_from_tokens host fuel tks
      = Some (Raise (SyntaxError "unexpected EOF while reading"), rest) ->
      tks = []) /\
  read_from_tokens host (read_fuel ["("; "1"]) ["("; "1"]
    = Some (Raise IndexError, []) /\
  exn_class IndexError <> "SyntaxError".
Proof.
  split; [|split; [apply read_eof_only_when_empty|split; [reflexivity|discriminate]]].
  destruct (read_fuel_enough ("(" :: tokens)) as [[r rest] E]. rewrite E.
  destruct r as [x|e]; [exact I|].
  unfold read_fuel in E. rewrite read_from_tokens_S in E.
  change (String.eqb "(" "(") with true in E. cbv iota in E.
  eapply read_while_raises, E.
Qed.

End Reader.

(** ** Environments *)

(** [Env(parms, args, outer)] for a parameter list of symbols: a new
    frame is allocated, whatever the two lengths are. *)
Lemma Env_init_symbols names args outer st :
  Env_init (Lst (List.map Symbol names)) args outer st
  = Some (Ok (length (heap st)),
          mkState (heap st ++ [mkEnv (dict_update_str [] (combine names args)) outer])
                  (clock st)).
Proof.
  unfold Env_init, zip, lift, bind, alloc. simpl iter_expr. cbv iota.
  rewrite combine_symbols, dict_update_symbols. reflexivity.
Qed.

(** ** The evaluator *)

Section Evaluator.
Variable host : runtime.

Lemma eval_S n x env :
  eval host (S n) x env = eval_step (eval host n) (call host n) (find n) x env.
Proof. reflexivity. Qed.

Lemma call_S n proc args :
  call host (S n) proc args = call_step host (eval host n) (call host n) proc args.
Proof. reflexivity. Qed.

(** *** Derived rules *)

Lemma bind_ok {A B} (m : M A) (k : A -> M B) st a st' :
  m st = Some (Ok a, st') -> bind m k st = k a st'.
Proof. intros H. unfold bind. rewrite H. reflexivity. Qed.

Lemma bind_raise {A B} (m : M A) (k : A -> M B) st e st' :
  m st = Some (Raise e, st') -> bind m k st = Some (Raise e, st').
Proof. intros H. unfold bind. rewrite H. reflexivity. Qed.

Lemma deref_ok l st e : heap st !! l = Some e -> deref l st = Some (Ok e, st).
Proof. intros H. unfold deref. rewrite H. reflexivity. Qed.

Lemma find_S n var self : find (S n) var self = find_step (find n) var self.
Proof. reflexivity. Qed.

Lemma find_here n var self st e :
  heap st !! self = Some e -> hashable var = true ->
  dict_mem var (dict e) = true ->
  find (S n) var self st = Some (Ok self, st).
Proof.
  intros He Hh Hm. rewrite find_S. unfold find_step.
  rewrite (bind_ok _ _ _ _ _ (deref_ok _ _ _ He)), Hh, Hm. reflexivity.
Qed.

Lemma find_up n var self st e o :
  heap st !! self = Some e -> hashable var = true ->
  dict_mem var (dict e) = false -> outer e = Some o ->
  find (S n) var self st = find n var o st.
Proof.
  intros He Hh Hm Ho. rewrite find_S. unfold find_step.
  rewrite (bind_ok _ _ _ _ _ (deref_ok _ _ _ He)), Hh, Hm, Ho. reflexivity.
Qed.

Lemma find_top n var self st e :
  heap st !! self = Some e -> hashable var = true ->
  dict_mem var (dict e) = false -> outer e = None ->
  find (S n) var self st = Some (Raise AttributeError, st).
Proof.
  intros He Hh Hm Ho. rewrite find_S. unfold find_step.
  rewrite (bind_ok _ _ _ _ _ (deref_ok _ _ _ He)), Hh, Hm, Ho. reflexivity.
Qed.

Lemma eval_symbol n s env st l e v :
  find n (Symbol s) env st = Some (Ok l, st) ->
  heap st !! l = Some e -> dict_get (Symbol s) (dict e) = Some v ->
  eval host (S n) (Symbol s) env st = Some (Ok v, st).
Proof.
  intros Hf He Hv. rewrite eval_S. unfold eval_step.
  rewrite (bind_ok _ _ _ _ _ Hf). unfold Env_getitem.
  rewrite (bind_ok _ _ _ _ _ (deref_ok _ _ _ He)). simpl. rewrite Hv. reflexivity.
Qed.

Lemma eval_int n z env st : eval host (S n) (Int z) env st = Some (Ok (VInt z), st).
Proof. reflexivity. Qed.

Lemma eval_if_rule n test conseq alt env st t st1 :
  eval host n test env st = Some (Ok t, st1) ->
  eval host (S n) (Lst [Symbol "if"; test; conseq; alt]) env st =
  eval host n (if truthy t then conseq else alt) env st1.
Proof.
  intros Ht. rewrite eval_S. change (eval_step _ _ _ _ _) with
    (eval_if (eval host n) [Symbol "if"; test; conseq; alt] env).
  unfold eval_if. rewrite (bind_ok _ _ _ _ _ Ht). reflexivity.
Qed.

Lemma eval_call_rule n x0 rest env st proc st1 args st2 :
  is_special x0 = false ->
  eval host n x0 env st = Some (Ok proc, st1) ->
  mapM (fun arg => eval host n arg env) rest st1 = Some (Ok args, st2) ->
  eval host (S n) (Lst (x0 :: rest)) env st = call host n proc args st2.
Proof.
  intros Hs Hp Ha. rewrite eval_S. unfold eval_step.
  unfold is_special in Hs. repeat (apply orb_false_elim in Hs; destruct Hs as [Hs ?]).
  repeat match goal with H : is_keyword _ _ = false |- _ => rewrite H; clear H end.
  unfold eval_call. rewrite (bind_ok _ _ _ _ _ Hp), (bind_ok _ _ _ _ _ Ha). reflexivity.
Qed.

Lemma mapM_nil {A B} (f : A -> M B) st : mapM f [] st = Some (Ok [], st).
Proof. reflexivity. Qed.

Lemma mapM_cons {A B} (f : A -> M B) a l st b st1 bs st2 :
  f a st = Some (Ok b, st1) -> mapM f l st1 = Some (Ok bs, st2) ->
  mapM f (a :: l) st = Some (Ok (b :: bs), st2).
Proof.
  intros Ha Hl. simpl. rewrite (bind_ok _ _ _ _ _ Ha), (bind_ok _ _ _ _ _ Hl).
  reflexivity.
Qed.

Lemma call_procedure n parms body cenv args st l st' :
  Env_init parms args (Some cenv) st = Some (Ok l, st') ->
  call host (S n) (VProcedure parms body cenv) args st = eval host n body l st'.
Proof.
  intros H. rewrite call_S. unfold call_step.
  rewrite (bind_ok _ _ _ _ _ H). reflexivity.
Qed.

Lemma call_spelled_out n b args r st :
  spelled_out b args = Some r ->
  call host (S n) (VBuiltin b) args st = Some (r, st).
Proof.
  intros H. rewrite call_S. unfold call_step.
  assert (Hn : call_native host b args st = Some (r, st)).
  { unfold call_native. rewrite H. reflexivity. }
  destruct b; try exact Hn; destruct args as [|? [|? [|? ?]]]; discriminate.
Qed.

Lemma dict_mem_get k d v : dict_get k d = Some v -> dict_mem k d = true.
Proof. intros H. unfold dict_mem. rewrite H. reflexivity. Qed.

Lemma eval_symbol_here n s env st e v :
  heap st !! env = Some e -> dict_get (Symbol s) (dict e) = Some v ->
  eval host (S (S n)) (Symbol s) env st = Some (Ok v, st).
Proof.
  intros He Hv. eapply eval_symbol; [|exact He|exact Hv].
  eapply find_here; [exact He|reflexivity|]. eapply dict_mem_get, Hv.
Qed.


Lemma eval_lambda_rule n parms body env st :
  eval host (S n) (Lst [Symbol "lambda"; parms; body]) env st
  = Some (Ok (VProcedure parms body env), st).
Proof. reflexivity. Qed.

Lemma eval_define_rule n var exp env st v st1 e :
  eval host n exp env st = Some (Ok v, st1) ->
  heap st1 !! env = Some e -> hashable var = true ->
  eval host (S n) (Lst [Symbol "define"; var; exp]) env st =
  Some (Ok VNone,
        mkState (<[env := mkEnv (dict_set var v (dict e)) (outer e)]> (heap st1))
                (clock st1)).
Proof.
  intros Hv He Hh. rewrite eval_S.
  change (eval_step _ _ _ _ _) with
    (eval_define (eval host n) [Symbol "define"; var; exp] env).
  unfold eval_define. rewrite (bind_ok _ _ _ _ _ Hv).
  unfold Env_setitem at 1.
  unfold bind at 1. unfold bind at 1.
  rewrite (deref_ok _ _ _ He), Hh. reflexivity.
Qed.

(** *** The empty list *)

(** C9.  Evaluating the empty list [()] fails in every environment: the
    first test on a list indexes its first element, so the outcome is
    [IndexError] and never a value. *)
Theorem eval_empty_list_fails (n : nat) (env : loc) (st : state) :
  parse host "()" = Some (Ok (Lst [])) /\
  eval host (S n) (Lst []) env st = Some (Raise IndexError, st) /\
  (forall fuel v st', eval host fuel (Lst []) env st <> Some (Ok v, st')).
Proof.
  split; [reflexivity|]. split; [reflexivity|].
  intros [|fuel] v st'; discriminate.
Qed.

(** *** Special forms *)

(** C10.  A list whose first element is one of the five keywords is
    evaluated by the rule of that keyword, in every environment and
    state, whatever the keyword is bound to there: the call of a value
    ([call1], [call2]) takes no part in the step, and with [if] bound in
    the current frame, [(if 1 2 3)] is still [2]. *)
Theorem special_forms_ignore_bindings (n : nat) (rest : list expr) (env : loc) :
  (eval host (S n) (Lst (Symbol "quote" :: rest)) env
     = eval_quote (Symbol "quote" :: rest) /\
   eval host (S n) (Lst (Symbol "if" :: rest)) env
     = eval_if (eval host n) (Symbol "if" :: rest) env /\
   eval host (S n) (Lst (Symbol "define" :: rest)) env
     = eval_define (eval host n) (Symbol "define" :: rest) env /\
   eval host (S n) (Lst (Symbol "set!" :: rest)) env
     = eval_set (eval host n) (find n) (Symbol "set!" :: rest) env /\
   eval host (S n) (Lst (Symbol "lambda" :: rest)) env
     = eval_lambda (Symbol "lambda" :: rest) env) /\
  (forall ev fnd call1 call2 kw,
      In kw ["quote"; "if"; "define"; "set!"; "lambda"] ->
      eval_step ev call1 fnd (Lst (Symbol kw :: rest)) env
      = eval_step ev call2 fnd (Lst (Symbol kw :: rest)) env) /\
  (forall st e v,
      heap st !! env = Some e -> dict_get (Symbol "if") (dict e) = Some v ->
      eval host (2 + n) (Symbol "if") env st = Some (Ok v, st) /\
      eval host (2 + n) (Lst [Symbol "if"; Int 1; Int 2; Int 3]) env st
      = Some (Ok (VInt 2), st)).
Proof.
  split; [repeat split; reflexivity|]. split.
  - intros ev fnd call1 call2 kw Hkw. simpl in Hkw.
    destruct Hkw as [<-|[<-|[<-|[<-|[<-|[]]]]]]; reflexivity.
  - intros st e v He Hv. split; [|reflexivity].
    simpl plus. eapply eval_symbol_here; [exact He|exact Hv].
Qed.

(** *** Definitions *)

(** C7.  After [(define x 5)] in an environment, the symbol [x] evaluates
    to [5] there. *)
Theorem define_then_lookup (n : nat) (s : string) (env : loc) (st : state) :
  is_Some (heap st !! env) ->
  exists st1,
    eval host (2 + n) (Lst [Symbol "define"; Symbol s; Int 5]) env st
      = Some (Ok VNone, st1) /\
    eval host (2 + n) (Symbol s) env st1 = Some (Ok (VInt 5), st1).
Proof.
  intros [e He]. eexists. split.
  - simpl plus. eapply eval_define_rule; [reflexivity|exact He|reflexivity].
  - simpl plus. eapply eval_symbol_here.
    + simpl. apply list_lookup_insert_eq. eapply lookup_lt_Some, He.
    + simpl. apply dict_get_set_eq, key_eqb_symbol_refl.
Qed.

(** *** Procedures *)

Lemma eval_symbol_outer n s env st e o e' v :
  heap st !! env = Some e -> dict_mem (Symbol s) (dict e) = false ->
  outer e = Some o ->
  heap st !! o = Some e' -> dict_get (Symbol s) (dict e') = Some v ->
  eval host (S (S (S n))) (Symbol s) env st = Some (Ok v, st).
Proof.
  intros He Hm Ho He' Hv. eapply eval_symbol; [|exact He'|exact Hv].
  rewrite (find_up _ (Symbol s) _ _ _ _ He eq_refl Hm Ho).
  eapply find_here; [exact He'|reflexivity|]. eapply dict_mem_get, Hv.
Qed.

Lemma call_procedure_symbols n names body cenv args st :
  call host (S n) (VProcedure (Lst (List.map Symbol names)) body cenv) args st
  = eval host n body (length (heap st))
      (mkState
         (heap st ++ [mkEnv (dict_update_str [] (combine names args)) (Some cenv)])
         (clock st)).
Proof. apply call_procedure, Env_init_symbols. Qed.

(** C1 (amended).  Creating the environment of a call from a parameter
    list of symbols and the argument values never fails, whatever the two
    counts are and whether or not a name is repeated: it allocates a
    frame that pairs names and arguments by position, as far as the
    shorter of the two goes.  A name is bound to the argument at the last
    paired position where it is listed, and is unbound exactly when it is
    listed at no paired position; so with distinct names the [i]-th
    parameter is bound to the [i]-th argument when there is one and is
    unbound when there is none.  The frame binds nothing else; surplus
    arguments are dropped.  Calling the procedure goes on to evaluate the
    body in that frame. *)
Theorem Env_init_pairs_up_to_the_shorter
    (names : list string) (args : list val) (outer : option loc) (st : state) :
  exists d,
    Env_init (Lst (List.map Symbol names)) args outer st
    = Some (Ok (length (heap st)),
            mkState (heap st ++ [mkEnv d outer]) (clock st)) /\
    (forall n v,
        dict_get (Symbol n) d = Some v <->
        exists i, names !! i = Some n /\ args !! i = Some v /\
                  forall j, i < j -> j < length args -> names !! j <> Some n) /\
    (forall n,
        dict_get (Symbol n) d = None <->
        forall i, i < length args -> names !! i <> Some n) /\
    (List.NoDup names ->
     forall i n, names !! i = Some n -> dict_get (Symbol n) d = args !! i) /\
    (forall k v, dict_get k d = Some v ->
                 exists i n, k = Symbol n /\ names !! i = Some n /\ i < length args) /\
    (forall n body cenv,
        outer = Some cenv ->
        call host (S n) (VProcedure (Lst (List.map Symbol names)) body cenv) args st
        = eval host n body (length (heap st))
            (mkState (heap st ++ [mkEnv d outer]) (clock st))).
Proof.
  exists (dict_update_str [] (combine names args)).
  assert (Hget : forall n, dict_get (Symbol n) (dict_update_str [] (combine names args))
                           = table_get n (combine names args)).
  { intros n. rewrite dict_update_str_get.
    destruct (table_get n (combine names args)); reflexivity. }
  split; [apply Env_init_symbols|]. split; [|split; [|split; [|split]]].
  - intros n v. rewrite Hget. apply table_get_combine_last.
  - intros n. rewrite Hget. apply table_get_combine_None.
  - intros Hnd i n Hi. rewrite dict_update_str_get.
    rewrite (table_get_combine names args i n Hnd Hi).
    destruct (args !! i); reflexivity.
  - clear Hget. intros k v Hk. apply dict_update_str_keys in Hk.
    destruct Hk as [(n & -> & Hn)|[w Hw]]; [|discriminate].
    apply in_map_iff in Hn. destruct Hn as [[n' v'] [Hfst Hin]].
    simpl in Hfst; subst n'.
    apply (In_nth_error (combine names args)) in Hin. destruct Hin as [i Hi].
    exists i, n.
    assert (Hlen : i < length (combine names args)).
    { apply nth_error_Some. rewrite Hi. discriminate. }
    rewrite length_combine in Hlen.
    split; [reflexivity|]. split; [|lia].
    clear Hlen. revert args i Hi. induction names as [|a names IH];
      intros [|x args] [|i] Hi; simpl in *; try discriminate.
    + inversion Hi; reflexivity.
    + eapply IH, Hi.
  - intros n body cenv ->. apply call_procedure_symbols.
Qed.

Lemma define_add_runs n :
  eval host (2 + n) define_add global_env (initial_state host)
  = Some (Ok VNone, add_defined host).
Proof.
  simpl plus. unfold define_add.
  assert (Hl := eval_lambda_rule n (Lst [Symbol "a"; Symbol "b"])
                  (Lst [Symbol "+"; Symbol "a"; Symbol "b"]) global_env
                  (initial_state host)).
  assert (He : heap (initial_state host) !! global_env
               = Some (mkEnv (standard_dict host) None)) by reflexivity.
  rewrite (eval_define_rule _ (Symbol "add") _ _ _ _ _ _ Hl He eq_refl).
  reflexivity.
Qed.

Lemma add_2_3_runs n :
  exists st, eval host (6 + n) add_2_3 global_env (add_defined host)
             = Some (Ok (VInt 5), st).
Proof.
  simpl plus. unfold add_2_3.
  assert (Hplus := standard_dict_get host "+" _ eq_refl).
  set (d1 := dict_set (Symbol "add") add_procedure (standard_dict host)).
  assert (Hadd : dict_get (Symbol "add") d1 = Some add_procedure).
  { apply dict_get_set_eq, key_eqb_symbol_refl. }
  assert (Hplus1 : dict_get (Symbol "+") d1 = Some (VBuiltin op_add)).
  { unfold d1. rewrite dict_get_set_symbol. exact Hplus. }
  assert (Hproc : eval host (S (S (S (S (S n))))) (Symbol "add") global_env
                    (add_defined host)
                  = Some (Ok add_procedure, add_defined host)).
  { eapply eval_symbol_here; [reflexivity|exact Hadd]. }
  rewrite (eval_call_rule _ (Symbol "add") [Int 2; Int 3] _ _ _ _
             [VInt 2; VInt 3] (add_defined host) eq_refl Hproc eq_refl).
  unfold add_procedure.
  rewrite (call_procedure_symbols _ ["a"; "b"]).
  change (length (heap (add_defined host))) with 1.
  set (st2 := mkState _ _).
  assert (Hop : eval host (S (S (S n))) (Symbol "+") 1 st2
                = Some (Ok (VBuiltin op_add), st2)).
  { eapply eval_symbol_outer; [reflexivity|reflexivity|reflexivity|reflexivity|].
    exact Hplus1. }
  assert (Hargs : mapM (fun arg => eval host (S (S (S n))) arg 1)
                    [Symbol "a"; Symbol "b"] st2
                  = Some (Ok [VInt 2; VInt 3], st2)).
  { eapply mapM_cons; [eapply eval_symbol_here; reflexivity|].
    eapply mapM_cons; [eapply eval_symbol_here; reflexivity|]. reflexivity. }
  rewrite (eval_call_rule _ (Symbol "+") [Symbol "a"; Symbol "b"] _ _ _ _ _ _
             eq_refl Hop Hargs).
  exists st2. apply call_spelled_out. reflexivity.
Qed.

Lemma eval_call_S n x0 rest env :
  is_special x0 = false ->
  eval host (S n) (Lst (x0 :: rest)) env
  = (proc <- eval host n x0 env ;;
     args <- mapM (fun arg => eval host n arg env) rest ;;
     call host n proc args).
Proof.
  intros Hs. rewrite eval_S. unfold eval_step.
  unfold is_special in Hs. repeat (apply orb_false_elim in Hs; destruct Hs as [Hs ?]).
  repeat match goal with H : is_keyword _ _ = false |- _ => rewrite H; clear H end.
  reflexivity.
Qed.

(** A procedure sees a definition made in its environment after the
    procedure was created. *)
Lemma late_definition_runs n :
  exists st1 st2 st3,
    eval host (2 + n) define_f global_env (initial_state host)
    = Some (Ok VNone, st1) /\
    eval host (2 + n) define_y global_env st1 = Some (Ok VNone, st2) /\
    eval host (5 + n) call_f global_env st2 = Some (Ok (VInt 7), st3).
Proof.
  simpl plus. unfold define_f, define_y, call_f.
  set (f := VProcedure (Lst []) (Symbol "y") global_env).
  set (d1 := dict_set (Symbol "f") f (standard_dict host)).
  set (d2 := dict_set (Symbol "y") (VInt 7) d1).
  exists (mkState [mkEnv d1 None] 0), (mkState [mkEnv d2 None] 0).
  eexists. split; [|split].
  - assert (Hl := eval_lambda_rule n (Lst []) (Symbol "y") global_env
                    (initial_state host)).
    assert (He : heap (initial_state host) !! global_env
                 = Some (mkEnv (standard_dict host) None)) by reflexivity.
    rewrite (eval_define_rule _ (Symbol "f") _ _ _ _ _ _ Hl He eq_refl).
    reflexivity.
  - assert (He : heap (mkState [mkEnv d1 None] 0) !! global_env
                 = Some (mkEnv d1 None)) by reflexivity.
    rewrite (eval_define_rule _ (Symbol "y") _ _ _ _ _ _
               (eval_int n 7 global_env _) He eq_refl).
    reflexivity.
  - set (st2 := mkState [mkEnv d2 None] 0).
    assert (Hf : dict_get (Symbol "f") d2 = Some f).
    { unfold d2. rewrite dict_get_set_symbol.
      change (String.eqb "y" "f") with false. cbv iota.
      apply dict_get_set_eq, key_eqb_symbol_refl. }
    assert (Hy : dict_get (Symbol "y") d2 = Some (VInt 7)).
    { apply dict_get_set_eq, key_eqb_symbol_refl. }
    assert (Hproc : eval host (S (S (S (S n)))) (Symbol "f") global_env st2
                    = Some (Ok f, st2)).
    { eapply eval_symbol_here; [reflexivity|exact Hf]. }
    rewrite (eval_call_rule _ (Symbol "f") [] _ _ _ _ [] st2 eq_refl Hproc eq_refl).
    unfold f. rewrite (call_procedure_symbols _ []).
    change (length (heap st2)) with 1.
    eapply eval_symbol_outer; [reflexivity|reflexivity|reflexivity|reflexivity|].
    exact Hy.
Qed.

(** C4.  A [lambda] form evaluates to a [Procedure] holding the
    parameter list, the body and a reference to the current environment,
    and leaves the state as it is.  A form with no keyword in front
    evaluates its first element, then the others from left to right, and
    calls the one on the others.  Calling a procedure allocates a new
    frame, which binds the parameters to the arguments and has the
    captured environment as [outer], and evaluates the body there, in the
    state of the call: the captured environment is shared, not copied, so
    a procedure sees definitions made after its creation.  With [add]
    defined as [(lambda (a b) (+ a b))] in the standard global
    environment, [(add 2 3)] is [5]. *)
Theorem lambda_captures_and_applies (n : nat) :
  (forall parms body env st,
      eval host (S n) (Lst [Symbol "lambda"; parms; body]) env st
      = Some (Ok (VProcedure parms body env), st)) /\
  (forall x0 rest env,
      is_special x0 = false ->
      eval host (S n) (Lst (x0 :: rest)) env
      = (proc <- eval host n x0 env ;;
         args <- mapM (fun arg => eval host n arg env) rest ;;
         call host n proc args)) /\
  (forall names body cenv args st,
      let d := dict_update_str [] (combine names args) in
      let l := length (heap st) in
      call host (S n) (VProcedure (Lst (List.map Symbol names)) body cenv) args st
      = eval host n body l (mkState (heap st ++ [mkEnv d (Some cenv)]) (clock st)) /\
      heap st !! l = None /\
      (List.NoDup names -> length names = length args ->
       forall i nm, names !! i = Some nm ->
                    exists v, args !! i = Some v /\ dict_get (Symbol nm) d = Some v)) /\
  (exists st1 st2 st3,
      eval host (2 + n) define_f global_env (initial_state host)
      = Some (Ok VNone, st1) /\
      eval host (2 + n) define_y global_env st1 = Some (Ok VNone, st2) /\
      eval host (5 + n) call_f global_env st2 = Some (Ok (VInt 7), st3)) /\
  (exists st1 st2,
      eval host (2 + n) define_add global_env (initial_state host)
      = Some (Ok VNone, st1) /\
      eval host (6 + n) add_2_3 global_env st1 = Some (Ok (VInt 5), st2)).
Proof.
  split; [intros; apply eval_lambda_rule|].
  split; [intros; apply eval_call_S; assumption|].
  split; [|split; [apply late_definition_runs|]].
  - intros names body cenv args st d l. split; [apply call_procedure_symbols|].
    split; [apply lookup_ge_None_2; unfold l; lia|].
    intros Hnd Hlen i nm Hi.
    assert (Hlt : i < length args).
    { rewrite <- Hlen. eapply lookup_lt_Some, Hi. }
    destruct (lookup_lt_is_Some_2 args i Hlt) as [v Hv].
    exists v. split; [exact Hv|].
    unfold d. rewrite dict_update_str_get.
    rewrite (table_get_combine names args i nm Hnd Hi), Hv. reflexivity.
  - destruct (add_2_3_runs n) as [st2 H2].
    exists (add_defined host), st2. split; [apply define_add_runs|exact H2].
Qed.

(** *** Conditionals *)

Lemma eval_if_S n test conseq alt env st :
  eval host (S n) (Lst [Symbol "if"; test; conseq; alt]) env st =
  match eval host n test env st with
  | Some (Ok t, st1) => eval host n (if truthy t then conseq else alt) env st1
  | Some (Raise e, st1) => Some (Raise e, st1)
  | None => None
  end.
Proof. reflexivity. Qed.

Lemma truthy_false v :
  truthy v = false <->
  v = VBool false \/ v = VNone \/ v = VInt 0 \/
  (exists f, v = VFloat f /\ PrimFloat.eqb f 0 = true) \/
  v = VStr EmptyString \/ v = VList [] \/ v = VTuple [].
Proof.
  split.
  - destruct v as [z|f|t|b| |l|l|? ? ?|?]; simpl; intros H; try discriminate.
    + apply negb_false_iff, Z.eqb_eq in H. subst. auto.
    + apply negb_false_iff in H. right; right; right; left. eauto.
    + destruct t; [auto 10|discriminate].
    + subst. auto.
    + auto.
    + destruct l; [auto 10|discriminate].
    + destruct l; [auto 10|discriminate].
  - intros [->|[->|[->|[(f & -> & Hf)|[->|[->| ->]]]]]]; simpl;
      try reflexivity. rewrite Hf. reflexivity.
Qed.

Lemma if_gt_3_2_runs n :
  eval host (4 + n) if_gt_3_2 global_env (initial_state host)
  = Some (Ok (VInt 1), initial_state host).
Proof.
  assert (H := standard_dict_get host ">" _ eq_refl).
  simpl plus. unfold if_gt_3_2.
  assert (Hgt : eval host (S (S n)) (Symbol ">") global_env (initial_state host)
                = Some (Ok (VBuiltin op_gt), initial_state host)).
  { eapply eval_symbol_here; [reflexivity|exact H]. }
  assert (Ht : eval host (S (S (S n))) (Lst [Symbol ">"; Int 3; Int 2]) global_env
                 (initial_state host)
               = Some (Ok (VBool true), initial_state host)).
  { rewrite (eval_call_rule _ (Symbol ">") [Int 3; Int 2] _ _ _ _
               [VInt 3; VInt 2] (initial_state host) eq_refl Hgt eq_refl).
    apply call_spelled_out. reflexivity. }
  rewrite (eval_if_rule _ _ _ _ _ _ _ _ Ht). reflexivity.
Qed.

(** C5 (amended).  An [if] form evaluates its test and then exactly one
    branch, in the state the test left: the consequent when the test
    value is true for Python, the alternate otherwise; the branch not
    chosen has no part in the outcome, whatever it is.  False for Python
    are [False], [None], a zero number, and the empty string, list and
    tuple; every other value is true.  [(if (> 3 2) 1 2)] is [1] in the
    standard environment. *)
Theorem if_evaluates_one_branch
    (n : nat) (test conseq alt : expr) (env : loc) (st : state) :
  (eval host (S n) (Lst [Symbol "if"; test; conseq; alt]) env st =
   match eval host n test env st with
   | Some (Ok t, st1) => eval host n (if truthy t then conseq else alt) env st1
   | Some (Raise e, st1) => Some (Raise e, st1)
   | None => None
   end) /\
  (forall t st1, eval host n test env st = Some (Ok t, st1) ->
     (truthy t = true -> forall other,
        eval host (S n) (Lst [Symbol "if"; test; conseq; other]) env st
        = eval host n conseq env st1) /\
     (truthy t = false -> forall other,
        eval host (S n) (Lst [Symbol "if"; test; other; alt]) env st
        = eval host n alt env st1)) /\
  (forall v, truthy v = false <->
     v = VBool false \/ v = VNone \/ v = VInt 0 \/
     (exists f, v = VFloat f /\ PrimFloat.eqb f 0 = true) \/
     v = VStr EmptyString \/ v = VList [] \/ v = VTuple []) /\
  eval host (4 + n) if_gt_3_2 global_env (initial_state host)
  = Some (Ok (VInt 1), initial_state host).
Proof.
  split; [apply eval_if_S|]. split; [|split; [apply truthy_false|apply if_gt_3_2_runs]].
  intros t st1 Ht. split; intros Hb other;
    rewrite (eval_if_rule _ _ _ _ _ _ _ _ Ht), Hb; reflexivity.
Qed.

(** *** The frame [define] writes *)

(** A chain starts at its frame, and a frame has one chain. *)
Lemma chain_det h l ls1 :
  chain h l ls1 -> forall ls2, chain h l ls2 -> ls1 = ls2.
Proof.
  induction 1 as [l e He Ho|l e o ls He Ho Hc IH]; intros ls2 H2;
    inversion H2 as [l' e' He' Ho'|l' e' o' ls' He' Ho' Hc']; subst;
    rewrite He in He'; inversion He'; subst e'; try congruence.
  rewrite Ho in Ho'. inversion Ho'; subst o'. f_equal. apply IH, Hc'.
Qed.

(** Every frame of a chain has, as its own chain, the rest of the list. *)
Lemma chain_suffix h l ls :
  chain h l ls -> forall l', In l' ls ->
  exists pre suf, ls = pre ++ suf /\ chain h l' suf.
Proof.
  induction 1 as [l e He Ho|l e o ls He Ho Hc IH]; intros l' Hin.
  - destruct Hin as [<-|[]]. exists [], [l]. split; [reflexivity|].
    eapply chain_top; eassumption.
  - destruct Hin as [<-|Hin].
    + exists [], (l :: ls). split; [reflexivity|]. eapply chain_up; eassumption.
    + destruct (IH l' Hin) as (pre & suf & -> & Hs).
      exists (l :: pre), suf. split; [reflexivity|exact Hs].
Qed.

(** No frame is its own ancestor. *)
Lemma chain_no_cycle h env ls : chain h env (env :: ls) -> ~ In env ls.
Proof.
  intros Hc Hin.
  assert (Hsuf : exists pre suf, ls = pre ++ suf /\ chain h env suf).
  { inversion Hc as [l e He Ho|l e o ls' He Ho Hc']; subst; [destruct Hin|].
    apply (chain_suffix _ _ _ Hc' env Hin). }
  destruct Hsuf as (pre & suf & -> & Hs).
  apply (chain_det _ _ _ Hc) in Hs.
  apply (f_equal (@length loc)) in Hs. simpl in Hs. rewrite length_app in Hs. lia.
Qed.

(** C6 (amended).  When the value expression of a [define] form has
    evaluated to [v], leaving the state [st1], the form stores [v] under
    the name in the current frame of [st1] and changes nothing else:
    every other frame, so every ancestor, one that binds the same name
    included, is as the value expression left it, and so is every other
    binding of the current frame.  A name that cannot be a key raises
    [TypeError] and changes nothing. *)
Theorem define_writes_current_frame
    (n : nat) (var exp : expr) (env : loc) (st st1 : state) (v : val) (e : Env) :
  eval host n exp env st = Some (Ok v, st1) ->
  heap st1 !! env = Some e ->
  let h' := <[env := mkEnv (dict_set var v (dict e)) (outer e)]> (heap st1) in
  (hashable var = true ->
     eval host (S n) (Lst [Symbol "define"; var; exp]) env st
     = Some (Ok VNone, mkState h' (clock st1))) /\
  (hashable var = false ->
     eval host (S n) (Lst [Symbol "define"; var; exp]) env st
     = Some (Raise TypeError, st1)) /\
  (forall l, l <> env -> h' !! l = heap st1 !! l) /\
  (forall ancestors, chain (heap st1) env (env :: ancestors) ->
     Forall (fun l => h' !! l = heap st1 !! l) ancestors) /\
  h' !! env = Some (mkEnv (dict_set var v (dict e)) (outer e)) /\
  (forall s, var = Symbol s ->
     dict_get (Symbol s) (dict_set var v (dict e)) = Some v /\
     forall k, k <> Symbol s ->
               dict_get k (dict_set var v (dict e)) = dict_get k (dict e)).
Proof.
  intros Hv He h'.
  assert (Hother : forall l, l <> env -> h' !! l = heap st1 !! l).
  { intros l Hl. unfold h'. apply list_lookup_insert_ne. congruence. }
  split; [|split; [|split; [exact Hother|split; [|split]]]].
  - intros Hh. apply (eval_define_rule _ _ _ _ _ _ _ _ Hv He Hh).
  - intros Hh. rewrite eval_S.
    change (eval_step _ _ _ _ _) with
      (eval_define (eval host n) [Symbol "define"; var; exp] env).
    unfold eval_define. rewrite (bind_ok _ _ _ _ _ Hv).
    unfold Env_setitem. unfold bind at 1. unfold bind at 1.
    rewrite (deref_ok _ _ _ He), Hh. reflexivity.
  - intros ancestors Hc. apply List.Forall_forall. intros l Hl.
    apply Hother. intros ->. exact (chain_no_cycle _ _ _ Hc Hl).
  - unfold h'. apply list_lookup_insert_eq. eapply lookup_lt_Some, He.
  - intros s ->. split; [apply dict_get_set_eq, key_eqb_symbol_refl|].
    intros k Hk. apply dict_get_set_symbol_other, Hk.
Qed.

(** [find] along a chain: the first frame that binds the name, or
    [AttributeError] from the [None] past the outermost frame. *)
Lemma find_along_chain h env ls :
  chain h env ls ->
  forall n st var,
    heap st = h -> length ls <= n -> hashable var = true ->
    find n var env st
    = Some (match innermost h var ls with
            | Some l => Ok l
            | None => Raise AttributeError
            end, st).
Proof.
  induction 1 as [l e He Ho|l e o ls He Ho Hc IH]; intros n st var Hst Hn Hh;
    (destruct n as [|n]; [simpl in Hn; lia|]); subst h;
    unfold innermost; simpl List.find; unfold bound_in at 1; rewrite He;
    destruct (dict_mem var (dict e)) eqn:Hm.
  - apply (find_here _ _ _ _ _ He Hh Hm).
  - apply (find_top _ _ _ _ _ He Hh Hm Ho).
  - apply (find_here _ _ _ _ _ He Hh Hm).
  - rewrite (find_up _ _ _ _ _ _ He Hh Hm Ho).
    apply IH; [reflexivity|simpl in Hn; lia|exact Hh].
Qed.

Lemma innermost_first h var ls l :
  innermost h var ls = Some l ->
  exists pre post,
    ls = pre ++ l :: post /\ bound_in h var l = true /\
    Forall (fun l' => bound_in h var l' = false) pre.
Proof.
  unfold innermost. induction ls as [|a ls IH]; simpl; [discriminate|].
  destruct (bound_in h var a) eqn:E.
  - intros [= ->]. exists [], ls. split; [reflexivity|]. split; [exact E|constructor].
  - intros H. destruct (IH H) as (pre & post & -> & Hb & Hpre).
    exists (a :: pre), post. split; [reflexivity|]. split; [exact Hb|].
    constructor; assumption.
Qed.

(** C3 (amended).  Along an environment chain, [find] returns the
    innermost frame that binds the name, or raises [AttributeError] (from
    the [None] that ends the chain) when no frame does.  So a symbol
    bound in no frame evaluates to that [AttributeError]; and [set!] of it
    raises the same, once its value expression has been evaluated, if the
    symbol is unbound in the state that evaluation leaves. *)
Theorem find_resolves_or_raises
    (n : nat) (env : loc) (st : state) (ls : list loc) :
  chain (heap st) env ls ->
  length ls <= n ->
  (forall var, hashable var = true ->
     find n var env st
     = Some (match innermost (heap st) var ls with
             | Some l => Ok l
             | None => Raise AttributeError
             end, st)) /\
  (forall var l, innermost (heap st) var ls = Some l ->
     exists pre post,
       ls = pre ++ l :: post /\ bound_in (heap st) var l = true /\
       Forall (fun l' => bound_in (heap st) var l' = false) pre) /\
  (forall s, innermost (heap st) (Symbol s) ls = None ->
     eval host (S n) (Symbol s) env st = Some (Raise AttributeError, st)) /\
  (forall s exp st0 v,
     eval host n exp env st0 = Some (Ok v, st) ->
     innermost (heap st) (Symbol s) ls = None ->
     eval host (S n) (Lst [Symbol "set!"; Symbol s; exp]) env st0
     = Some (Raise AttributeError, st)).
Proof.
  intros Hc Hn.
  assert (Hf : forall var, hashable var = true ->
     find n var env st
     = Some (match innermost (heap st) var ls with
             | Some l => Ok l
             | None => Raise AttributeError
             end, st)).
  { intros var Hh. apply (find_along_chain _ _ _ Hc); auto. }
  split; [exact Hf|]. split; [intros var l; apply innermost_first|]. split.
  - intros s Hs. specialize (Hf (Symbol s) eq_refl). rewrite Hs in Hf.
    rewrite eval_S. unfold eval_step. apply (bind_raise _ _ _ _ _ Hf).
  - intros s exp st0 v Hv Hs. specialize (Hf (Symbol s) eq_refl). rewrite Hs in Hf.
    rewrite eval_S.
    change (eval_step _ _ _ _ _) with
      (eval_set (eval host n) (find n) [Symbol "set!"; Symbol s; exp] env).
    unfold eval_set. rewrite (bind_ok _ _ _ _ _ Hv).
    apply (bind_raise _ _ _ _ _ Hf).
Qed.

(** *** Runs that do not depend on the host *)

(** With two parameters and one argument the call goes through. *)
Lemma call_with_one_argument_runs n :
  fst <$> eval host (4 + n) call_with_one_argument global_env (initial_state host)
  = Some (Ok (VInt 1)).
Proof.
  simpl plus. unfold call_with_one_argument.
  assert (Hp := eval_lambda_rule (S (S n)) (Lst [Symbol "a"; Symbol "b"])
                  (Symbol "a") global_env (initial_state host)).
  rewrite (eval_call_rule _ (Lst [Symbol "lambda"; Lst [Symbol "a"; Symbol "b"];
                                  Symbol "a"]) [Int 1] _ _ _ _
             [VInt 1] (initial_state host) eq_refl Hp eq_refl).
  rewrite (call_procedure_symbols _ ["a"; "b"]).
  change (length (heap (initial_state host))) with 1.
  erewrite eval_symbol_here; reflexivity.
Qed.

(** The value of [(define x 1)] is [None], and [if] takes it for false. *)
Lemma if_define_runs n :
  fst <$> eval host (3 + n) if_define global_env (initial_state host)
  = Some (Ok (VInt 20)).
Proof.
  simpl plus. unfold if_define, define_x_1.
  assert (He : heap (initial_state host) !! global_env
               = Some (mkEnv (standard_dict host) None)) by reflexivity.
  rewrite (eval_if_rule _ _ _ _ _ _ _ _
             (eval_define_rule _ (Symbol "x") _ _ _ _ _ _
                (eval_int n 1 global_env _) He eq_refl)).
  reflexivity.
Qed.

(** [(set! x (define x 1))] returns on every host, whether or not [x] was
    bound: its value expression binds [x] before [find] runs. *)
Lemma set_define_runs n :
  fst <$> eval host (3 + n) set_define global_env (initial_state host)
  = Some (Ok VNone).
Proof.
  simpl plus. unfold set_define, define_x_1.
  assert (He : heap (initial_state host) !! global_env
               = Some (mkEnv (standard_dict host) None)) by reflexivity.
  assert (Hd := eval_define_rule (S n) (Symbol "x") (Int 1) global_env _ _ _ _
                  (eval_int n 1 global_env _) He eq_refl).
  rewrite eval_S.
  change (eval_step _ _ _ _ _) with
    (eval_set (eval host (S (S n))) (find (S (S n)))
       [Symbol "set!"; Symbol "x"; Lst [Symbol "define"; Symbol "x"; Int 1]]
       global_env).
  unfold eval_set. rewrite (bind_ok _ _ _ _ _ Hd).
  set (d1 := dict_set (Symbol "x") (VInt 1) (standard_dict host)).
  assert (Hx : dict_get (Symbol "x") d1 = Some (VInt 1)).
  { apply dict_get_set_eq, key_eqb_symbol_refl. }
  assert (Hf : find (S (S n)) (Symbol "x") global_env (mkState [mkEnv d1 None] 0)
               = Some (Ok global_env, mkState [mkEnv d1 None] 0)).
  { eapply find_here; [reflexivity|reflexivity|]. eapply dict_mem_get, Hx. }
  change (mkState _ (clock (initial_state host))) with (mkState [mkEnv d1 None] 0).
  rewrite (bind_ok _ _ _ _ _ Hf). reflexivity.
Qed.

(** The inner [set!] of [(define a (set! b 1))] reaches the outer frame. *)
Lemma define_a_set_b_runs n :
  eval host (4 + n) define_a_set_b 1 two_frames
  = Some (Ok VNone,
          mkState [mkEnv [(Symbol "b", VInt 1)] None;
                   mkEnv [(Symbol "a", VNone)] (Some 0)] 0).
Proof. reflexivity. Qed.

(** *** The recursion bound

    A result, once reached, is the result for every larger bound. *)

Lemma extends_refl {A} (m : M A) : extends m m.
Proof. intros st r H. exact H. Qed.

Lemma bind_extends {A B} (m m' : M A) (k k' : A -> M B) :
  extends m m' -> (forall a, extends (k a) (k' a)) ->
  extends (bind m k) (bind m' k').
Proof.
  intros Hm Hk st r H. unfold bind in *.
  destruct (m st) as [[[a|e] st1]|] eqn:E; [| |discriminate];
    rewrite (Hm _ _ E); [apply Hk|]; exact H.
Qed.

Lemma mapM_extends {A B} (f f' : A -> M B) l :
  (forall a, extends (f a) (f' a)) -> extends (mapM f l) (mapM f' l).
Proof.
  intros Hf. induction l as [|a l IH]; simpl; [apply extends_refl|].
  apply bind_extends; [apply Hf|]. intros b.
  apply bind_extends; [exact IH|]. intros bs. apply extends_refl.
Qed.

Lemma find_step_extends rec rec' var self :
  (forall v l, extends (rec v l) (rec' v l)) ->
  extends (find_step rec var self) (find_step rec' var self).
Proof.
  intros Hr. unfold find_step. apply bind_extends; [apply extends_refl|].
  intros e. destruct (hashable var); [|apply extends_refl].
  destruct (dict_mem var (dict e)); [apply extends_refl|].
  destruct (outer e); [apply Hr|apply extends_refl].
Qed.

Lemma find_mono n var self : extends (find n var self) (find (S n) var self).
Proof.
  revert var self. induction n as [|n IH]; intros var self.
  - intros st r H. discriminate.
  - apply find_step_extends. exact IH.
Qed.

Lemma call_step_extends ev ev' cl cl' proc args :
  (forall x env, extends (ev x env) (ev' x env)) ->
  (forall p a, extends (cl p a) (cl' p a)) ->
  extends (call_step host ev cl proc args) (call_step host ev' cl' proc args).
Proof.
  intros Hev Hcl. destruct proc as [| | | | | | |parms body env|b]; simpl;
    try apply extends_refl.
  - apply bind_extends; [apply extends_refl|]. intros e. apply Hev.
  - destruct b; try apply extends_refl.
    + unfold apply_step. destruct args as [|f [|a [|? ?]]]; try apply extends_refl.
      * apply Hcl.
      * apply bind_extends; [apply extends_refl|]. intros l. apply Hcl.
    + unfold map_step. destruct args as [|f [|s seqs]]; try apply extends_refl.
      assert (Hgen : extends
        (ls <- lift (iter_all (s :: seqs));;
         match f with
         | VNone => ret (VList (List.map VTuple (map_rows ls)))
         | _ => vs <- mapM (cl f) (map_rows ls);; ret (VList vs)
         end)
        (ls <- lift (iter_all (s :: seqs));;
         match f with
         | VNone => ret (VList (List.map VTuple (map_rows ls)))
         | _ => vs <- mapM (cl' f) (map_rows ls);; ret (VList vs)
         end)).
      { apply bind_extends; [apply extends_refl|]. intros ls.
        destruct f; try apply extends_refl;
          (apply bind_extends; [apply mapM_extends; intros; apply Hcl|]);
          intros; apply extends_refl. }
      destruct f; try exact Hgen. destruct seqs; [apply extends_refl|exact Hgen].
Qed.

Lemma eval_step_extends ev ev' cl cl' fnd fnd' x env :
  (forall x env, extends (ev x env) (ev' x env)) ->
  (forall p a, extends (cl p a) (cl' p a)) ->
  (forall v l, extends (fnd v l) (fnd' v l)) ->
  extends (eval_step ev cl fnd x env) (eval_step ev' cl' fnd' x env).
Proof.
  intros Hev Hcl Hfnd. destruct x as [z|f|s|l]; simpl; try apply extends_refl.
  - apply bind_extends; [apply Hfnd|]. intros e. apply extends_refl.
  - destruct l as [|x0 rest]; [apply extends_refl|].
    destruct (is_keyword x0 "quote"); [apply extends_refl|].
    destruct (is_keyword x0 "if").
    { unfold eval_if. destruct rest as [|t [|c [|a [|? ?]]]]; try apply extends_refl.
      apply bind_extends; [apply Hev|]. intros v. apply Hev. }
    destruct (is_keyword x0 "define").
    { unfold eval_define. destruct rest as [|t [|c [|? ?]]]; try apply extends_refl.
      apply bind_extends; [apply Hev|]. intros v. apply extends_refl. }
    destruct (is_keyword x0 "set!").
    { unfold eval_set. destruct rest as [|t [|c [|? ?]]]; try apply extends_refl.
      apply bind_extends; [apply Hev|]. intros v.
      apply bind_extends; [apply Hfnd|]. intros e. apply extends_refl. }
    destruct (is_keyword x0 "lambda"); [apply extends_refl|].
    unfold eval_call. apply bind_extends; [apply Hev|]. intros proc.
    apply bind_extends; [apply mapM_extends; intros; apply Hev|].
    intros args. apply Hcl.
Qed.

Lemma eval_call_mono n :
  (forall x env, extends (eval host n x env) (eval host (S n) x env)) /\
  (forall proc args, extends (call host n proc args) (call host (S n) proc args)).
Proof.
  induction n as [|n [IHe IHc]].
  - split; intros; intros st r H; discriminate.
  - split.
    + intros x env. apply eval_step_extends; [exact IHe|exact IHc|].
      intros v l. apply find_mono.
    + intros proc args. apply call_step_extends; [exact IHe|exact IHc].
Qed.

Lemma eval_fuel_le n m x env st r :
  n <= m -> eval host n x env st = Some r -> eval host m x env st = Some r.
Proof.
  induction 1 as [|m Hle IH]; [trivial|].
  intros H. apply (proj1 (eval_call_mono m)), IH, H.
Qed.


End Evaluator.

(** ** Integers in print *)

Lemma digits_value_uint d : forall acc,
  digits_value acc (NilEmpty.string_of_uint d) = Some (uint_value acc d).
Proof.
  induction d; intros acc; simpl NilEmpty.string_of_uint; try reflexivity;
    simpl uint_value; rewrite <- IHd; reflexivity.
Qed.

Lemma uint_value_pos d : forall acc,
  uint_value (Zpos acc) d = Zpos (Pos.of_uint_acc d acc).
Proof.
  induction d; intros acc; simpl; try reflexivity;
    rewrite <- IHd; f_equal; lia.
Qed.

Lemma uint_value_0 d : uint_value 0 d = Z.of_N (Pos.of_uint d).
Proof.
  induction d; simpl; try reflexivity; try exact IHd; apply uint_value_pos.
Qed.

Lemma uint_value_to_uint p : uint_value 0 (Pos.to_uint p) = Zpos p.
Proof. rewrite uint_value_0, DecimalPos.Unsigned.of_to. reflexivity. Qed.

Lemma string_of_uint_digit d :
  d <> Decimal.Nil ->
  exists c s, NilEmpty.string_of_uint d = String c s /\ is_digit c = true.
Proof.
  destruct d; intros H; try contradiction; simpl; eexists _, _; split;
    reflexivity.
Qed.

Lemma string_of_uint_nonnil d :
  d <> Decimal.Nil -> NilZero.string_of_uint d = NilEmpty.string_of_uint d.
Proof. destruct d; intros H; [contradiction|..]; reflexivity. Qed.

Lemma unsigned_int_to_uint p :
  unsigned_int (NilEmpty.string_of_uint (Pos.to_uint p)) = Some (Zpos p).
Proof.
  pose proof (DecimalPos.Unsigned.to_uint_nonnil p) as Hn.
  destruct (string_of_uint_digit _ Hn) as (c & s & Hs & _).
  unfold unsigned_int. rewrite Hs, <- Hs, digits_value_uint, uint_value_to_uint.
  reflexivity.
Qed.

(** ** The tokenizer, token by token *)

Lemma spaced_out_app s t : spaced_out (s ++ t)%string = (spaced_out s ++ spaced_out t)%string.
Proof.
  induction s as [|c s IH]; [reflexivity|].
  change (String c s ++ t)%string with (String c (s ++ t)%string).
  rewrite !spaced_out_cons, IH. 
  generalize (pad c). intros p. induction p as [|d p IHp]; simpl; [reflexivity|].
  rewrite IHp. reflexivity.
Qed.

Lemma space_not_bracket c : Str.isspace c = true -> is_bracket c = false.
Proof. destruct c as [[] [] [] [] [] [] [] []]; try discriminate; reflexivity. Qed.

Lemma pad_bracket b : is_bracket b = true -> pad b = spaced b.
Proof. unfold pad, is_bracket. intros ->. reflexivity. Qed.

Lemma pad_other c : is_bracket c = false -> pad c = String c EmptyString.
Proof. unfold pad, is_bracket. intros ->. reflexivity. Qed.

Lemma bracket_not_space b : is_bracket b = true -> Str.isspace b = false.
Proof. destruct b as [[] [] [] [] [] [] [] []]; try discriminate; reflexivity. Qed.

Lemma all_chars_app p s t :
  all_chars p (s ++ t)%string = all_chars p s && all_chars p t.
Proof.
  induction s as [|c s IH]; simpl; [reflexivity|]. rewrite IH. apply andb_assoc.
Qed.

(** One step of the scan on the spaced-out text, by kind of character. *)
Lemma split_from_space w c s :
  Str.isspace c = true ->
  Str.split_from w (spaced_out (String c s))
  = Str.flush w ++ Str.split_from EmptyString (spaced_out s).
Proof.
  intros Hc. rewrite spaced_out_cons, (pad_other _ (space_not_bracket _ Hc)).
  simpl. rewrite Hc. reflexivity.
Qed.

Lemma split_from_bracket w b s :
  is_bracket b = true ->
  Str.split_from w (spaced_out (String b s))
  = Str.flush w ++ String b EmptyString :: Str.split_from EmptyString (spaced_out s).
Proof.
  intros Hb. rewrite spaced_out_cons, (pad_bracket _ Hb).
  unfold spaced. simpl. rewrite (bracket_not_space _ Hb). reflexivity.
Qed.

Lemma split_from_word_char w c s :
  word_char c = true ->
  Str.split_from w (spaced_out (String c s))
  = Str.split_from (w ++ String c EmptyString) (spaced_out s).
Proof.
  unfold word_char. intros Hc. apply andb_true_iff in Hc. destruct Hc as [Hs Hb].
  apply negb_true_iff in Hs, Hb.
  rewrite spaced_out_cons, (pad_other _ Hb). simpl. rewrite Hs. reflexivity.
Qed.

Lemma char_kind c :
  Str.isspace c = true \/ is_bracket c = true \/ word_char c = true.
Proof.
  unfold word_char. destruct (Str.isspace c); [auto|].
  destruct (is_bracket c); auto.
Qed.

Lemma append_nil_r s : (s ++ EmptyString)%string = s.
Proof. induction s as [|c s IH]; simpl; [reflexivity|]. rewrite IH. reflexivity. Qed.

Lemma append_assoc s t u : ((s ++ t) ++ u)%string = (s ++ t ++ u)%string.
Proof. induction s as [|c s IH]; simpl; [reflexivity|]. rewrite IH. reflexivity. Qed.

(** A run of word characters joins the pending word. *)
Lemma split_from_word w a s :
  all_chars word_char a = true ->
  Str.split_from w (spaced_out (a ++ s)%string)
  = Str.split_from (w ++ a) (spaced_out s).
Proof.
  revert w. induction a as [|c a IH]; intros w Ha.
  - simpl. rewrite append_nil_r. reflexivity.
  - simpl in Ha. apply andb_true_iff in Ha. destruct Ha as [Hc Ha].
    change (String c a ++ s)%string with (String c (a ++ s)%string).
    rewrite (split_from_word_char _ _ _ Hc), (IH _ Ha), append_assoc. reflexivity.
Qed.

Lemma word_shape w :
  all_chars word_char w = true -> Forall token_shape (Str.flush w).
Proof.
  intros Hw. destruct w as [|c w]; simpl; constructor; [|constructor].
  split; [discriminate|]. 
  assert (H : forall s, all_chars word_char s = true ->
            all_chars (fun c => negb (Str.isspace c)) s = true /\
            all_chars (fun c => negb (is_bracket c)) s = true).
  { induction s as [|d s IH]; simpl; [auto|]. unfold word_char at 1.
    intros H. apply andb_true_iff in H. destruct H as [H1 H2].
    apply andb_true_iff in H1. destruct H1 as [Hs Hb].
    destruct (IH H2) as [IH1 IH2]. rewrite Hs, Hb, IH1, IH2. auto. }
  destruct (H _ Hw) as [H1 H2]. split; [exact H1|left; exact H2].
Qed.

Lemma bracket_shape b : is_bracket b = true -> token_shape (String b EmptyString).
Proof.
  intros Hb. split; [discriminate|]. split.
  - simpl. rewrite (bracket_not_space _ Hb). reflexivity.
  - right. exists b. auto.
Qed.

Lemma split_from_shape s : forall w,
  all_chars word_char w = true ->
  Forall token_shape (Str.split_from w (spaced_out s)).
Proof.
  induction s as [|c s IH]; intros w Hw.
  - apply word_shape, Hw.
  - destruct (char_kind c) as [Hc|[Hc|Hc]].
    + rewrite (split_from_space _ _ _ Hc). apply Forall_app. split.
      * apply word_shape, Hw.
      * apply IH. reflexivity.
    + rewrite (split_from_bracket _ _ _ Hc). apply Forall_app. split.
      * apply word_shape, Hw.
      * constructor; [apply bracket_shape, Hc|apply IH; reflexivity].
    + rewrite (split_from_word_char _ _ _ Hc). apply IH.
      rewrite all_chars_app, Hw. simpl. rewrite Hc. reflexivity.
Qed.

Lemma tokenize_shapes s : Forall token_shape (tokenize s).
Proof. apply (split_from_shape s EmptyString). reflexivity. Qed.

(** The scan of a text, a white-space character and more text. *)
Lemma split_from_app_space w a c rest :
  Str.isspace c = true ->
  Str.split_from w (a ++ String c rest)%string
  = Str.split_from w a ++ Str.split_from EmptyString rest.
Proof.
  intros Hc. revert w. induction a as [|d a IH]; intros w; simpl.
  - rewrite Hc. reflexivity.
  - destruct (Str.isspace d); [rewrite IH, app_assoc; reflexivity|apply IH].
Qed.

Lemma tokenize_app_sep (c : ascii) (s1 s2 : string) :
  (Str.isspace c = true -> tokenize (s1 ++ String c s2) = tokenize s1 ++ tokenize s2) /\
  (is_bracket c = true ->
   tokenize (s1 ++ String c s2) = tokenize s1 ++ String c EmptyString :: tokenize s2).
Proof.
  unfold tokenize, Str.split. split; intros Hc.
  - rewrite spaced_out_app, spaced_out_cons, (pad_other _ (space_not_bracket _ Hc)).
    simpl append. apply split_from_app_space, Hc.
  - rewrite spaced_out_app, spaced_out_cons, (pad_bracket _ Hc).
    unfold spaced. simpl append. rewrite split_from_app_space by reflexivity.
    simpl. rewrite (bracket_not_space _ Hc). reflexivity.
Qed.

(** No token at all: the text is white space only. *)
Lemma split_from_nil s : forall w,
  Str.split_from w (spaced_out s) = [] <->
  w = EmptyString /\ all_chars Str.isspace s = true.
Proof.
  induction s as [|c s IH]; intros w.
  - simpl. destruct w; simpl; split; intros H; try discriminate; auto.
    destruct H; discriminate.
  - destruct (char_kind c) as [Hc|[Hc|Hc]].
    + rewrite (split_from_space _ _ _ Hc). simpl. rewrite Hc. simpl.
      split.
      * intros H. apply app_eq_nil in H. destruct H as [Hw H].
        apply IH in H. destruct w; [|discriminate]. tauto.
      * intros [-> H]. simpl. apply IH. auto.
    + rewrite (split_from_bracket _ _ _ Hc). simpl.
      rewrite (bracket_not_space _ Hc). simpl. split.
      * intros H. apply app_eq_nil in H. destruct H; discriminate.
      * intros [_ H]. discriminate.
    + rewrite (split_from_word_char _ _ _ Hc). rewrite IH. simpl.
      unfold word_char in Hc. apply andb_true_iff in Hc. destruct Hc as [Hs _].
      apply negb_true_iff in Hs. rewrite Hs. simpl. split.
      * intros [H _]. destruct w; discriminate.
      * intros [_ H]. discriminate.
Qed.

Lemma tokenize_nil s : tokenize s = [] <-> all_chars Str.isspace s = true.
Proof.
  unfold tokenize, Str.split. rewrite split_from_nil. tauto.
Qed.

(** Tokens written one after the other, a space in between, are read
    back as they are. *)
Lemma split_from_token t rest :
  token_shape t ->
  Str.split_from EmptyString (spaced_out (t ++ String " " rest)%string)
  = t :: Str.split_from EmptyString (spaced_out rest).
Proof.
  intros (Hne & Hsp & [Hw|(b & Hb & ->)]).
  - assert (Hword : all_chars word_char t = true).
    { clear Hne. induction t as [|c t IH]; simpl in *; [reflexivity|].
      apply andb_true_iff in Hsp, Hw. destruct Hsp as [H1 H2], Hw as [H3 H4].
      unfold word_char. rewrite H1, H3. simpl. apply IH; assumption. }
    rewrite (split_from_word _ _ _ Hword). simpl append.
    rewrite split_from_space by reflexivity.
    destruct t; [contradiction|reflexivity].
  - simpl append. rewrite (split_from_bracket _ _ _ Hb).
    rewrite split_from_space by reflexivity. reflexivity.
Qed.

Lemma split_from_last_token t :
  token_shape t -> Str.split_from EmptyString (spaced_out t) = [t].
Proof.
  intros (Hne & Hsp & [Hw|(b & Hb & ->)]).
  - assert (Hword : all_chars word_char t = true).
    { clear Hne. induction t as [|c t IH]; simpl in *; [reflexivity|].
      apply andb_true_iff in Hsp, Hw. destruct Hsp as [H1 H2], Hw as [H3 H4].
      unfold word_char. rewrite H1, H3. simpl. apply IH; assumption. }
    rewrite <- (append_nil_r t) at 1. rewrite (split_from_word _ _ _ Hword).
    simpl. destruct t; [contradiction|reflexivity].
  - rewrite (split_from_bracket _ _ _ Hb). reflexivity.
Qed.

Lemma tokenize_join ts :
  Forall token_shape ts -> tokenize (join " " ts) = ts.
Proof.
  unfold tokenize, Str.split. induction 1 as [|t ts Ht Hts IH]; [reflexivity|].
  destruct ts as [|t' ts].
  - simpl. apply split_from_last_token, Ht.
  - change (join " " (t :: t' :: ts)) with (t ++ String " " (join " " (t' :: ts)))%string.
    rewrite (split_from_token _ _ Ht), IH. reflexivity.
Qed.

Lemma tokenize_join_tokenize s : tokenize (join " " (tokenize s)) = tokenize s.
Proof. apply tokenize_join, tokenize_shapes. Qed.

(** X1.  Every token that [tokenize] returns is non-empty and free of
    white space, and a token that holds one of the four brackets is that
    bracket alone. *)
Theorem tokens_are_words_or_single_brackets (s : string) :
  Forall token_shape (tokenize s).
Proof. apply tokenize_shapes. Qed.

(** X2.  Tokenizing splits at separators: around a white-space character
    the tokens of a text are those of its two sides, one list after the
    other; around a bracket they are those of the left side, the bracket
    as a token, and those of the right side. *)
Theorem tokenize_splits_at_separators (c : ascii) (s1 s2 : string) :
  (Str.isspace c = true ->
   tokenize (s1 ++ String c s2) = tokenize s1 ++ tokenize s2) /\
  (is_bracket c = true ->
   tokenize (s1 ++ String c s2)
   = tokenize s1 ++ String c EmptyString :: tokenize s2).
Proof. apply tokenize_app_sep. Qed.

(** X3.  [tokenize] returns no token exactly when the text is empty or
    all white space. *)
Theorem tokenize_empty_iff_blank (s : string) :
  tokenize s = [] <-> all_chars Str.isspace s = true.
Proof. apply tokenize_nil. Qed.

(** X4.  Tokens joined with single spaces are tokenized back to the same
    list, when each has the shape of a token. *)
Theorem tokenize_reads_back_joined_tokens (ts : list string) :
  Forall token_shape ts -> tokenize (join " " ts) = ts.
Proof. apply tokenize_join. Qed.

(** ** The reader and its grammar *)

Section Grammar.
Variable host : runtime.

Lemma read_fuel_le n m :
  n <= m ->
  (forall tokens r, read_from_tokens host n tokens = Some r ->
                    read_from_tokens host m tokens = Some r) /\
  (forall L tokens r, read_while host n L tokens = Some r ->
                      read_while host m L tokens = Some r).
Proof.
  induction 1 as [|m Hle [IHr IHw]]; [split; auto|].
  destruct (read_fuel_mono host m) as [Hr Hw]. split.
  - intros tokens r H. apply Hr, IHr, H.
  - intros L tokens r H. apply Hw, IHw, H.
Qed.

Lemma reads_as_head ts x :
  reads_as host ts x -> exists t ts', ts = t :: ts' /\ t <> ")".
Proof.
  destruct 1 as [token H1 H2|ts xs H]; eexists _, _; split;
    try reflexivity; [exact H2|discriminate].
Qed.

Lemma reads_sound :
  (forall ts x, reads_as host ts x ->
     forall rest, exists fuel,
       read_from_tokens host fuel (ts ++ rest) = Some (Ok x, rest)) /\
  (forall ts xs, reads_items host ts xs ->
     forall L rest, exists fuel,
       read_while host fuel L (ts ++ ")" :: rest) = Some (Ok (Lst (L ++ xs)), rest)).
Proof.
  apply reads_mutind.
  - intros token H1 H2 rest. exists 1. simpl app. rewrite read_from_tokens_S.
    destruct (String.eqb "(" token) eqn:E1.
    { apply String.eqb_eq in E1. congruence. }
    destruct (String.eqb ")" token) eqn:E2.
    { apply String.eqb_eq in E2. congruence. }
    reflexivity.
  - intros ts xs _ IH rest. destruct (IH [] rest) as [fuel Hf].
    exists (S fuel). simpl app. rewrite read_from_tokens_S.
    change (String.eqb "(" "(") with true. cbv iota.
    rewrite <- app_assoc. exact Hf.
  - intros L rest. exists 1. simpl app. rewrite read_while_S.
    change (String.eqb ")" ")") with true. simpl. rewrite app_nil_r. reflexivity.
  - intros ts x tss xs Hx IHx _ IHxs L rest.
    destruct (IHx (tss ++ ")" :: rest)) as [f1 H1].
    destruct (IHxs (L ++ [x]) rest) as [f2 H2].
    exists (S (Nat.max f1 f2)).
    destruct (reads_as_head _ _ Hx) as (t & ts' & -> & Ht).
    rewrite <- app_assoc. simpl app. rewrite read_while_S.
    destruct (String.eqb t ")") eqn:E.
    { apply String.eqb_eq in E. contradiction. }
    simpl negb. cbv iota.
    destruct (read_fuel_le f1 (Nat.max f1 f2) (Nat.le_max_l _ _)) as [Hr _].
    destruct (read_fuel_le f2 (Nat.max f1 f2) (Nat.le_max_r _ _)) as [_ Hw].
    simpl app in H1. rewrite (Hr _ _ H1).
    rewrite <- app_assoc in H2. simpl app in H2. apply Hw. exact H2.
Qed.

Lemma reads_complete fuel :
  (forall tokens x rest,
     read_from_tokens host fuel tokens = Some (Ok x, rest) ->
     exists ts, tokens = ts ++ rest /\ reads_as host ts x) /\
  (forall L tokens x rest,
     read_while host fuel L tokens = Some (Ok x, rest) ->
     exists ts xs, tokens = ts ++ ")" :: rest /\ reads_items host ts xs /\
                   x = Lst (L ++ xs)).
Proof.
  induction fuel as [|fuel [IHr IHw]]; [split; intros; discriminate|]. split.
  - intros tokens x rest H. rewrite read_from_tokens_S in H.
    destruct tokens as [|token tokens']; [discriminate|].
    destruct (String.eqb "(" token) eqn:E1.
    + apply String.eqb_eq in E1. subst token.
      apply IHw in H. destruct H as (ts & xs & -> & Hi & ->).
      exists ("(" :: ts ++ [")"]). split.
      * simpl. rewrite <- app_assoc. reflexivity.
      * apply reads_lst. exact Hi.
    + destruct (String.eqb ")" token) eqn:E2; [discriminate|].
      inversion H; subst. exists [token]. split; [reflexivity|].
      apply reads_atom; intros ->; discriminate.
  - intros L tokens x rest H. rewrite read_while_S in H.
    destruct tokens as [|t tokens']; [discriminate|].
    destruct (String.eqb t ")") eqn:E; simpl negb in H; cbv iota in H.
    + apply String.eqb_eq in E. subst t. inversion H; subst.
      exists [], []. split; [reflexivity|]. split; [constructor|].
      rewrite app_nil_r. reflexivity.
    + destruct (read_from_tokens host fuel (t :: tokens')) as [[[y|e] rest']|] eqn:Ey;
        [| discriminate | discriminate].
      apply IHr in Ey. destruct Ey as (ts1 & E1 & H1).
      apply IHw in H. destruct H as (ts2 & xs & -> & H2 & ->).
      exists (ts1 ++ ts2), (y :: xs). split; [rewrite E1, <- app_assoc; reflexivity|].
      split; [constructor; assumption|]. rewrite <- app_assoc. reflexivity.
Qed.

(** Reading the spelling of an expression, whatever follows it, returns
    the expression and leaves what follows. *)
Lemma read_spelling (ts : list string) (x : expr) (rest : list string) :
  reads_as host ts x ->
  read_from_tokens host (read_fuel (ts ++ rest)) (ts ++ rest) = Some (Ok x, rest).
Proof.
  intros H. destruct (proj1 reads_sound ts x H rest) as [fuel Hf].
  destruct (read_fuel_enough host (ts ++ rest)) as [r Hr].
  destruct (Nat.le_ge_cases fuel (read_fuel (ts ++ rest))) as [Hle|Hle].
  - apply (proj1 (read_fuel_le _ _ Hle)), Hf.
  - rewrite Hr. apply (proj1 (read_fuel_le _ _ Hle)) in Hr. congruence.
Qed.

(** What the reader returns is spelled by the tokens it consumed, which
    are a prefix of what it was given. *)
Lemma read_consumes_a_spelling (fuel : nat) (tokens : list string) (x : expr)
    (rest : list string) :
  read_from_tokens host fuel tokens = Some (Ok x, rest) ->
  exists ts, tokens = ts ++ rest /\ ts <> [] /\ reads_as host ts x.
Proof.
  intros H. apply (proj1 (reads_complete fuel)) in H.
  destruct H as (ts & -> & Hts). exists ts. split; [reflexivity|]. split; [|exact Hts].
  destruct (reads_as_head _ _ Hts) as (t & ts' & -> & _). discriminate.
Qed.

(** The three ways the reader fails. *)
Lemma read_failures (fuel : nat) (tokens : list string) (e : exn)
    (rest : list string) :
  read_from_tokens host fuel tokens = Some (Raise e, rest) ->
  (tokens = [] /\ e = SyntaxError "unexpected EOF while reading" /\ rest = []) \/
  (exists tl, tokens = ")" :: tl /\ e = SyntaxError "unexpected )" /\ rest = tl) \/
  (exists tl, tokens = "(" :: tl /\ e = IndexError /\ rest = []).
Proof.
  destruct fuel as [|fuel]; [discriminate|]. rewrite read_from_tokens_S.
  destruct tokens as [|token tl].
  - intros [= <- <-]. auto.
  - destruct (String.eqb "(" token) eqn:E1.
    + apply String.eqb_eq in E1. subst token. intros H.
      apply read_while_raises in H. destruct H as [-> ->]. right; right. eauto.
    + destruct (String.eqb ")" token) eqn:E2; [|discriminate].
      apply String.eqb_eq in E2. subst token. intros [= <- <-]. right; left. eauto.
Qed.

(** X5.  The reader returns [x] and leaves [rest] exactly when the tokens
    are a spelling of [x] followed by [rest]: it reads one expression,
    the shortest prefix that spells one, and does not look at what
    follows. *)
Theorem read_from_tokens_reads_one_spelling
    (tokens : list string) (x : expr) (rest : list string) :
  read_from_tokens host (read_fuel tokens) tokens = Some (Ok x, rest) <->
  exists ts, tokens = ts ++ rest /\ reads_as host ts x.
Proof.
  split.
  - intros H. apply read_consumes_a_spelling in H.
    destruct H as (ts & H1 & _ & H2). exists ts. split; assumption.
  - intros (ts & -> & H). apply read_spelling, H.
Qed.

(** X6.  [parse] reads one expression and ignores the rest of the text: a
    program that parses to [x] still parses to [x] when white space or a
    bracket, and then anything at all, is added after it. *)
Theorem parse_ignores_what_follows
    (program : string) (x : expr) (c : ascii) (more : string) :
  parse host program = Some (Ok x) ->
  Str.isspace c = true \/ is_bracket c = true ->
  parse host (program ++ String c more) = Some (Ok x).
Proof.
  unfold parse. intros H Hc.
  destruct (read_from_tokens host (read_fuel (tokenize program)) (tokenize program))
    as [[r rest]|] eqn:E; [|discriminate].
  simpl in H. inversion H; subst r.
  apply read_consumes_a_spelling in E. destruct E as (ts & Ets & _ & Hts).
  assert (Ht : exists more', tokenize (program ++ String c more) = ts ++ more').
  { destruct (tokenize_app_sep c program more) as [Hs Hb].
    destruct Hc as [Hc|Hc]; [rewrite (Hs Hc)|rewrite (Hb Hc)];
      rewrite Ets, <- app_assoc; eexists; reflexivity. }
  destruct Ht as [more' ->]. rewrite (read_spelling _ _ more' Hts). reflexivity.
Qed.

Lemma parse_raises program e :
  parse host program = Some (Raise e) ->
  exists rest,
    read_from_tokens host (read_fuel (tokenize program)) (tokenize program)
    = Some (Raise e, rest).
Proof.
  unfold parse.
  destruct (read_from_tokens host (read_fuel (tokenize program)) (tokenize program))
    as [[r rest]|]; [|discriminate].
  simpl. intros [= ->]. exists rest. reflexivity.
Qed.

(** X7.  [parse] always returns or raises, and it raises in three ways
    only: [SyntaxError] for an unexpected end exactly when the text is
    empty or all white space, [SyntaxError] for an unexpected [)] exactly
    when the first token is [)], and otherwise [IndexError], which takes a
    text whose first token is [(]. *)
Theorem parse_failures (program : string) :
  is_Some (parse host program) /\
  (parse host program = Some (Raise (SyntaxError "unexpected EOF while reading")) <->
   all_chars Str.isspace program = true) /\
  (parse host program = Some (Raise (SyntaxError "unexpected )")) <->
   exists tl, tokenize program = ")" :: tl) /\
  (forall e, parse host program = Some (Raise e) ->
     e = SyntaxError "unexpected EOF while reading" \/
     e = SyntaxError "unexpected )" \/
     (e = IndexError /\ exists tl, tokenize program = "(" :: tl)).
Proof.
  split; [apply parse_total|]. split; [|split].
  - rewrite <- tokenize_nil. split.
    + intros H. apply parse_raises in H. destruct H as [rest H].
      apply read_failures in H.
      destruct H as [(H & _)|[(tl & _ & H & _)|(tl & _ & H & _)]];
        [exact H|discriminate|discriminate].
    + intros H. unfold parse. rewrite H. reflexivity.
  - split.
    + intros H. apply parse_raises in H. destruct H as [rest H].
      apply read_failures in H.
      destruct H as [(_ & H & _)|[(tl & H & _)|(tl & _ & H & _)]];
        [discriminate|exists tl; exact H|discriminate].
    + intros [tl H]. unfold parse. rewrite H. reflexivity.
  - intros e H. apply parse_raises in H. destruct H as [rest H].
    apply read_failures in H.
    destruct H as [(_ & H & _)|[(tl & _ & H & _)|(tl & Ht & H & _)]];
      [left; exact H|right; left; exact H|right; right].
    split; [exact H|exists tl; exact Ht].
Qed.

End Grammar.

(** ** Printing and reading back *)

Lemma expr_ind' (P : expr -> Prop) :
  (forall n, P (Int n)) -> (forall f, P (Float f)) -> (forall s, P (Symbol s)) ->
  (forall l, Forall P l -> P (Lst l)) -> forall x, P x.
Proof.
  intros Hi Hf Hs Hl. fix IH 1. intros [n|f|s|l]; [apply Hi|apply Hf|apply Hs|].
  apply Hl. induction l as [|y l IHl]; constructor; [apply IH|exact IHl].
Qed.

Lemma printable_Lst host l : printable host (Lst l) <-> Forall (printable host) l.
Proof.
  induction l as [|y l IH]; simpl.
  - split; [constructor|trivial].
  - split.
    + intros [Hy Hl]. constructor; [exact Hy|apply IH, Hl].
    + intros H. inversion H; subst. split; [assumption|apply IH; assumption].
Qed.

Section RoundTrip.
Variable host : runtime.
Variable str_other : val -> string.

Lemma all_digits_uint d : all_chars is_digit (NilEmpty.string_of_uint d) = true.
Proof. induction d; simpl; auto. Qed.

Lemma digit_word_char c : is_digit c = true -> word_char c = true.
Proof. destruct c as [[] [] [] [] [] [] [] []]; try discriminate; reflexivity. Qed.

Lemma all_chars_impl (p q : ascii -> bool) s :
  (forall c, p c = true -> q c = true) -> all_chars p s = true -> all_chars q s = true.
Proof.
  intros Hpq. induction s as [|c s IH]; simpl; [auto|].
  intros H. apply andb_true_iff in H. destruct H as [H1 H2].
  rewrite (Hpq _ H1), (IH H2). reflexivity.
Qed.

Lemma word_token_shape t :
  t <> EmptyString -> all_chars word_char t = true -> token_shape t.
Proof.
  intros Hne Hw. split; [exact Hne|]. split; [|left].
  - revert Hw. apply all_chars_impl. unfold word_char. intros c H.
    apply andb_true_iff in H. tauto.
  - revert Hw. apply all_chars_impl. unfold word_char. intros c H.
    apply andb_true_iff in H. tauto.
Qed.

Lemma str_int_word n :
  str_int n <> EmptyString /\ all_chars word_char (str_int n) = true /\
  str_int n <> "(" /\ str_int n <> ")".
Proof.
  unfold str_int. destruct n as [|p|p]; [repeat split; discriminate| |];
    simpl Z.to_int; unfold NilZero.string_of_int;
    pose proof (DecimalPos.Unsigned.to_uint_nonnil p) as Hn;
    rewrite (string_of_uint_nonnil _ Hn);
    destruct (string_of_uint_digit _ Hn) as (c & s & Hs & Hc);
    pose proof (all_digits_uint (Pos.to_uint p)) as Hd;
    apply (all_chars_impl _ _ _ digit_word_char) in Hd.
  - rewrite Hs in *. split; [discriminate|]. split; [exact Hd|].
    split; intros [= -> ->]; discriminate.
  - split; [discriminate|]. split; [simpl; exact Hd|].
    split; discriminate.
Qed.

Lemma rstrip_no_space s :
  all_chars (fun c => negb (Str.isspace c)) s = true -> rstrip s = s.
Proof.
  induction s as [|c s IH]; [reflexivity|]. simpl. intros H.
  apply andb_true_iff in H. destruct H as [Hc Hs]. rewrite (IH Hs).
  apply negb_true_iff in Hc. rewrite Hc. destruct s; reflexivity.
Qed.

Lemma lstrip_no_space s :
  all_chars (fun c => negb (Str.isspace c)) s = true -> lstrip s = s.
Proof.
  destruct s as [|c s]; [reflexivity|]. simpl. intros H.
  apply andb_true_iff in H. destruct H as [Hc _].
  apply negb_true_iff in Hc. rewrite Hc. reflexivity.
Qed.

(** [int(str(n))] is [n]. *)
Lemma int_of_token_str_int n : int_of_token (str_int n) = Some n.
Proof.
  assert (Hsp : all_chars (fun c => negb (Str.isspace c)) (str_int n) = true).
  { destruct (str_int_word n) as (_ & Hw & _). revert Hw.
    apply all_chars_impl. unfold word_char. intros c H.
    apply andb_true_iff in H. tauto. }
  unfold int_of_token. rewrite (rstrip_no_space _ Hsp), (lstrip_no_space _ Hsp).
  clear Hsp.
  unfold str_int. destruct n as [|p|p]; [reflexivity| |].
  - simpl Z.to_int. unfold NilZero.string_of_int.
    pose proof (DecimalPos.Unsigned.to_uint_nonnil p) as Hn.
    rewrite (string_of_uint_nonnil _ Hn).
    destruct (string_of_uint_digit _ Hn) as (c & s & Hs & Hc).
    assert (Hu : signed_int (String c s) = unsigned_int (String c s)).
    { unfold signed_int.
      destruct c as [[] [] [] [] [] [] [] []]; try discriminate; reflexivity. }
    rewrite Hs, Hu, <- Hs. apply unsigned_int_to_uint.
  - simpl Z.to_int. unfold NilZero.string_of_int.
    pose proof (DecimalPos.Unsigned.to_uint_nonnil p) as Hn.
    rewrite (string_of_uint_nonnil _ Hn).
    cbn [signed_int append]. rewrite unsigned_int_to_uint. reflexivity.
Qed.

Lemma atom_str_int n : atom host (str_int n) = Int n.
Proof. unfold atom. rewrite int_of_token_str_int. reflexivity. Qed.

Lemma atom_Symbol token s : atom host token = Symbol s -> s = token.
Proof.
  unfold atom. destruct (int_of_token token); [discriminate|].
  destruct (float_of_token host token); [discriminate|]. intros [= <-]. reflexivity.
Qed.

(** The tokens of a printable expression spell it. *)
Lemma printable_reads x :
  printable host x -> reads_as host (tokens_of x) x /\ Forall token_shape (tokens_of x).
Proof.
  induction x as [n|f|s|l IH] using expr_ind'; intros Hp.
  - destruct (str_int_word n) as (H1 & H2 & H3 & H4). split.
    + simpl. rewrite <- (atom_str_int n). apply reads_atom; assumption.
    + constructor; [apply word_token_shape; assumption|constructor].
  - destruct Hp.
  - destruct Hp as (H1 & H2 & H3 & H4). split.
    + simpl. rewrite <- H4. apply reads_atom; assumption.
    + constructor; [exact H1|constructor].
  - apply printable_Lst in Hp.
    assert (H : reads_items host (flat_map tokens_of l) l /\
                Forall token_shape (flat_map tokens_of l)).
    { induction l as [|y l IHl]; [split; constructor|].
      inversion IH; subst. inversion Hp; subst.
      destruct (H1 H3) as [Hy1 Hy2]. destruct (IHl H2 H4) as [Hl1 Hl2].
      split; [simpl; constructor; assumption|]. simpl. apply Forall_app. auto. }
    destruct H as [H1 H2]. split; [simpl; apply reads_lst; exact H1|].
    simpl. constructor; [apply (bracket_shape "("); reflexivity|].
    apply Forall_app. split; [exact H2|].
    constructor; [apply (bracket_shape ")"); reflexivity|constructor].
Qed.

(** What the reader returns from tokens of the right shape is printable
    when it has no [float]. *)
Lemma reads_printable :
  (forall ts x, reads_as host ts x ->
     Forall token_shape ts -> float_free x = true -> printable host x) /\
  (forall ts xs, reads_items host ts xs ->
     Forall token_shape ts -> forallb float_free xs = true ->
     Forall (printable host) xs).
Proof.
  apply reads_mutind.
  - intros token H1 H2 Hs Hf. inversion Hs; subst.
    destruct (atom host token) as [n|f|s|l] eqn:E; simpl; try exact I;
      try discriminate.
    + apply atom_Symbol in E as E'. subst s. auto.
    + unfold atom in E. destruct (int_of_token token); [discriminate|].
      destruct (float_of_token host token); discriminate.
  - intros ts xs _ IH Hs Hf. apply printable_Lst. apply IH; [|exact Hf].
    inversion Hs; subst. apply Forall_app in H2. tauto.
  - constructor.
  - intros ts x tss xs _ IHx _ IHxs Hs Hf. apply Forall_app in Hs.
    simpl in Hf. apply andb_true_iff in Hf. destruct Hs, Hf.
    constructor; auto.
Qed.

Lemma split_from_token_boundary t rest :
  token_shape t -> boundary rest ->
  Str.split_from EmptyString (spaced_out (t ++ rest)%string)
  = t :: Str.split_from EmptyString (spaced_out rest).
Proof.
  intros (Hne & Hsp & [Hw|(b & Hb & ->)]) Hrest.
  - assert (Hword : all_chars word_char t = true).
    { clear Hne. induction t as [|c t IH]; simpl in *; [reflexivity|].
      apply andb_true_iff in Hsp, Hw. destruct Hsp as [H1 H2], Hw as [H3 H4].
      unfold word_char. rewrite H1, H3. simpl. apply IH; assumption. }
    rewrite (split_from_word _ _ _ Hword). simpl append.
    destruct rest as [|c rest].
    + simpl. destruct t; [contradiction|reflexivity].
    + destruct Hrest as [Hc|Hc].
      * rewrite !(split_from_space _ _ _ Hc). destruct t; [contradiction|reflexivity].
      * rewrite !(split_from_bracket _ _ _ Hc). destruct t; [contradiction|reflexivity].
  - simpl append. rewrite (split_from_bracket _ _ _ Hb). reflexivity.
Qed.

(** The text of a printable expression has the tokens of the
    expression. *)
Lemma split_schemestr x :
  printable host x -> forall rest, boundary rest ->
  Str.split_from EmptyString (spaced_out (schemestr str_other (quoted x) ++ rest)%string)
  = tokens_of x ++ Str.split_from EmptyString (spaced_out rest).
Proof.
  induction x as [n|f|s|l IH] using expr_ind'; intros Hp rest Hrest.
  - destruct (str_int_word n) as (H1 & H2 & _). simpl.
    apply split_from_token_boundary; [apply word_token_shape; assumption|exact Hrest].
  - destruct Hp.
  - destruct Hp as (H1 & _). simpl. apply split_from_token_boundary; assumption.
  - apply printable_Lst in Hp. simpl quoted. simpl schemestr. simpl tokens_of.
    rewrite List.map_map.
    match goal with
    | |- context [(String "(" ?a ++ ?b)%string] =>
        change (String "(" a ++ b)%string with (String "(" (a ++ b))%string
    end.
    rewrite (split_from_bracket _ "(") by reflexivity. simpl Str.flush. simpl app.
    f_equal. rewrite append_assoc. simpl append. rewrite <- app_assoc. simpl app.
    induction l as [|y l IHl].
    + cbn [join List.map append flat_map app].
      rewrite (split_from_bracket _ ")") by reflexivity. reflexivity.
    + inversion IH as [|? ? IHy IHl']; subst. inversion Hp as [|? ? Hy Hl]; subst.
      destruct l as [|z l].
      * cbn [join List.map flat_map]. rewrite (IHy Hy) by (right; reflexivity).
        rewrite (split_from_bracket _ ")") by reflexivity. rewrite app_nil_r. reflexivity.
      * change (join " " (List.map _ (y :: z :: l)))
          with (schemestr str_other (quoted y)
                ++ String " " (join " " (List.map (fun y => schemestr str_other (quoted y))
                                           (z :: l))))%string.
        rewrite append_assoc. simpl append.
        rewrite (IHy Hy) by (left; reflexivity).
        rewrite split_from_space by reflexivity. simpl Str.flush. simpl app.
        change (flat_map tokens_of (y :: z :: l))
          with (tokens_of y ++ flat_map tokens_of (z :: l)).
        rewrite <- app_assoc. f_equal. apply IHl; assumption.
Qed.

Lemma tokenize_schemestr x :
  printable host x -> tokenize (schemestr str_other (quoted x)) = tokens_of x.
Proof.
  intros Hp. unfold tokenize, Str.split.
  rewrite <- (append_nil_r (schemestr str_other (quoted x))).
  rewrite (split_schemestr x Hp EmptyString I). apply app_nil_r.
Qed.

Lemma parse_schemestr_printable x :
  printable host x -> parse host (schemestr str_other (quoted x)) = Some (Ok x).
Proof.
  intros Hp. unfold parse. rewrite (tokenize_schemestr x Hp).
  destruct (printable_reads x Hp) as [Hr _].
  pose proof (read_spelling host _ _ [] Hr) as H. rewrite app_nil_r in H.
  rewrite H. reflexivity.
Qed.

Lemma parse_printable program x :
  parse host program = Some (Ok x) -> float_free x = true -> printable host x.
Proof.
  unfold parse. intros H Hf.
  destruct (read_from_tokens host (read_fuel (tokenize program)) (tokenize program))
    as [[r rest]|] eqn:E; [|discriminate].
  simpl in H. inversion H; subst r.
  apply read_consumes_a_spelling in E. destruct E as (ts & Ets & _ & Hts).
  apply (proj1 reads_printable ts x Hts); [|exact Hf].
  pose proof (tokenize_shapes program) as Hs. rewrite Ets in Hs.
  apply Forall_app in Hs. tauto.
Qed.

(** X8.  [atom] reads the decimal text of an integer as that integer,
    whatever the host's [float] makes of the text: [int] is tried
    first. *)
Theorem atom_reads_printed_integers (n : Z) :
  int_of_token (str_int n) = Some n /\ atom host (str_int n) = Int n.
Proof. split; [apply int_of_token_str_int|apply atom_str_int]. Qed.

(** X9.  What [parse] returns, when no [float] is in it, is printed by
    [schemestr] as a text that [parse] reads back as the same
    expression. *)
Theorem parse_schemestr_round_trip (program : string) (x : expr) :
  parse host program = Some (Ok x) -> float_free x = true ->
  parse host (schemestr str_other (quoted x)) = Some (Ok x).
Proof.
  intros H Hf. apply parse_schemestr_printable. eapply parse_printable; eassumption.
Qed.

End RoundTrip.

(** ** The evaluator, case by case *)

Section More.
Variable host : runtime.

(** *** Variables *)

Lemma bound_in_get h k (l : loc) :
  bound_in h k l = true ->
  exists e v, h !! l = Some e /\ dict_get k (dict e) = Some v.
Proof.
  unfold bound_in, dict_mem. destruct (h !! l) as [e|]; [|discriminate].
  destruct (dict_get k (dict e)) as [v|] eqn:Hv; [|discriminate].
  intros _. exists e, v. split; [reflexivity|exact Hv].
Qed.

Lemma symbol_lookup n s env st ls l :
  chain (heap st) env ls -> length ls <= n ->
  innermost (heap st) (Symbol s) ls = Some l ->
  exists e v,
    heap st !! l = Some e /\ dict_get (Symbol s) (dict e) = Some v /\
    eval host (S n) (Symbol s) env st = Some (Ok v, st).
Proof.
  intros Hc Hn Hi.
  destruct (innermost_first _ _ _ _ Hi) as (pre & post & _ & Hb & _).
  destruct (bound_in_get _ _ _ Hb) as (e & v & He & Hv).
  exists e, v. split; [exact He|]. split; [exact Hv|].
  eapply eval_symbol; [|exact He|exact Hv].
  rewrite (find_along_chain _ _ _ Hc n st (Symbol s) eq_refl Hn eq_refl), Hi.
  reflexivity.
Qed.

(** X10.  A symbol evaluates to the value it has in the innermost frame of
    the chain that binds it, whatever the frames further out bind it to,
    and the state is as it was. *)
Theorem symbol_value_is_innermost_binding
    (n : nat) (s : string) (env : loc) (st : state) (ls : list loc) (l : loc) :
  chain (heap st) env ls -> length ls <= n ->
  innermost (heap st) (Symbol s) ls = Some l ->
  exists e v,
    heap st !! l = Some e /\ dict_get (Symbol s) (dict e) = Some v /\
    eval host (S n) (Symbol s) env st = Some (Ok v, st).
Proof. apply symbol_lookup. Qed.

(** *** Assignment *)

Lemma chain_insert h env ls :
  chain h env ls ->
  forall (l : loc) e e', h !! l = Some e -> outer e' = outer e ->
  chain (<[l := e']> h) env ls.
Proof.
  induction 1 as [l0 e0 He0 Ho0|l0 e0 o ls He0 Ho0 Hc IH]; intros l e e' He Ho.
  - destruct (decide (l0 = l)) as [->|Hne].
    + eapply chain_top; [apply list_lookup_insert_eq; eapply lookup_lt_Some, He|].
      rewrite Ho. congruence.
    + eapply chain_top; [rewrite list_lookup_insert_ne by congruence; exact He0|].
      exact Ho0.
  - destruct (decide (l0 = l)) as [->|Hne].
    + eapply chain_up; [apply list_lookup_insert_eq; eapply lookup_lt_Some, He| |].
      * rewrite Ho. assert (e0 = e) by congruence. subst e0. exact Ho0.
      * eapply IH; eassumption.
    + eapply chain_up; [rewrite list_lookup_insert_ne by congruence; exact He0| |].
      * exact Ho0.
      * eapply IH; eassumption.
Qed.

Lemma dict_mem_set_bound s k v d :
  dict_mem (Symbol s) d = true ->
  dict_mem k (dict_set (Symbol s) v d) = dict_mem k d.
Proof.
  intros Hs.
  assert (Hd : k = Symbol s \/ k <> Symbol s).
  { destruct k as [z|f|t|l]; try (right; discriminate).
    destruct (String.eqb_spec t s) as [->|Hne]; [left; reflexivity|].
    right. intros [= ->]. apply Hne. reflexivity. }
  destruct Hd as [->|Hne].
  - rewrite Hs. unfold dict_mem.
    rewrite dict_get_set_eq by apply key_eqb_symbol_refl. reflexivity.
  - unfold dict_mem. rewrite dict_get_set_symbol_other by exact Hne. reflexivity.
Qed.

Lemma innermost_ext h h' var ls :
  (forall l, bound_in h' var l = bound_in h var l) ->
  innermost h' var ls = innermost h var ls.
Proof.
  intros H. unfold innermost. induction ls as [|a ls IH]; [reflexivity|].
  simpl. rewrite H, IH. reflexivity.
Qed.

(** X11.  [set!] of a symbol that some frame of the chain binds, once its
    value expression has evaluated to [v]: the value is stored in the
    innermost frame that binds the symbol, every other frame is as it
    was, no frame gets a name it did not have, and the symbol then
    evaluates to [v]. *)
Theorem set_writes_innermost_binding
    (n : nat) (s : string) (exp : expr) (env : loc) (st0 st : state) (v : val)
    (ls : list loc) (l : loc) (e : Env) :
  eval host n exp env st0 = Some (Ok v, st) ->
  chain (heap st) env ls -> length ls <= n ->
  innermost (heap st) (Symbol s) ls = Some l ->
  heap st !! l = Some e ->
  let h' := <[l := mkEnv (dict_set (Symbol s) v (dict e)) (outer e)]> (heap st) in
  eval host (S n) (Lst [Symbol "set!"; Symbol s; exp]) env st0
  = Some (Ok VNone, mkState h' (clock st)) /\
  (forall l', l' <> l -> h' !! l' = heap st !! l') /\
  (forall k l', bound_in h' k l' = bound_in (heap st) k l') /\
  (forall k, k <> Symbol s ->
             dict_get k (dict_set (Symbol s) v (dict e)) = dict_get k (dict e)) /\
  eval host (S n) (Symbol s) env (mkState h' (clock st))
  = Some (Ok v, mkState h' (clock st)).
Proof.
  intros Hv Hc Hn Hi He h'.
  destruct (innermost_first _ _ _ _ Hi) as (pre & post & _ & Hb & _).
  assert (Hm : dict_mem (Symbol s) (dict e) = true).
  { unfold bound_in in Hb. rewrite He in Hb. exact Hb. }
  assert (Hl : h' !! l = Some (mkEnv (dict_set (Symbol s) v (dict e)) (outer e))).
  { unfold h'. apply list_lookup_insert_eq. eapply lookup_lt_Some, He. }
  assert (Hother : forall l', l' <> l -> h' !! l' = heap st !! l').
  { intros l' Hne. unfold h'. apply list_lookup_insert_ne. congruence. }
  assert (Hbound : forall k l', bound_in h' k l' = bound_in (heap st) k l').
  { intros k l'. unfold bound_in. destruct (decide (l' = l)) as [->|Hne].
    - rewrite Hl, He. simpl. apply dict_mem_set_bound, Hm.
    - rewrite (Hother l' Hne). reflexivity. }
  split; [|split; [exact Hother|split; [exact Hbound|split]]].
  - rewrite eval_S.
    change (eval_step _ _ _ _ _) with
      (eval_set (eval host n) (find n) [Symbol "set!"; Symbol s; exp] env).
    unfold eval_set. rewrite (bind_ok _ _ _ _ _ Hv).
    assert (Hf := find_along_chain _ _ _ Hc n st (Symbol s) eq_refl Hn eq_refl).
    rewrite Hi in Hf. rewrite (bind_ok _ _ _ _ _ Hf).
    unfold Env_setitem at 1. unfold bind at 1. unfold bind at 1.
    rewrite (deref_ok _ _ _ He). reflexivity.
  - intros k Hk. apply dict_get_set_symbol_other, Hk.
  - set (st' := mkState h' (clock st)).
    assert (Hc' : chain (heap st') env ls).
    { apply (chain_insert _ _ _ Hc l e); [exact He|reflexivity]. }
    assert (Hi' : innermost (heap st') (Symbol s) ls = Some l).
    { rewrite <- Hi. apply innermost_ext. intros l'. apply Hbound. }
    eapply eval_symbol; [|exact Hl|].
    + rewrite (find_along_chain _ _ _ Hc' n st' (Symbol s) eq_refl Hn eq_refl), Hi'.
      reflexivity.
    + simpl. apply dict_get_set_eq, key_eqb_symbol_refl.
Qed.

(** *** Malformed special forms *)

(** X12.  A special form with the wrong number of operands raises
    [ValueError] (from the tuple assignment) before anything is evaluated:
    the state is unchanged. *)
Theorem malformed_special_form_raises_ValueError
    (n : nat) (rest : list expr) (env : loc) (st : state) :
  (length rest <> 1 ->
   eval host (S n) (Lst (Symbol "quote" :: rest)) env st = Some (Raise ValueError, st)) /\
  (length rest <> 3 ->
   eval host (S n) (Lst (Symbol "if" :: rest)) env st = Some (Raise ValueError, st)) /\
  (length rest <> 2 ->
   eval host (S n) (Lst (Symbol "define" :: rest)) env st = Some (Raise ValueError, st) /\
   eval host (S n) (Lst (Symbol "set!" :: rest)) env st = Some (Raise ValueError, st) /\
   eval host (S n) (Lst (Symbol "lambda" :: rest)) env st = Some (Raise ValueError, st)).
Proof.
  split; [|split]; intros H.
  - destruct rest as [|a [|b rest]]; [reflexivity|elim H; reflexivity|reflexivity].
  - destruct rest as [|a [|b [|c [|d rest]]]]; try reflexivity. elim H; reflexivity.
  - destruct rest as [|a [|b [|c rest]]]; try (repeat split; reflexivity).
    elim H; reflexivity.
Qed.

(** *** Applications that fail *)

Lemma mapM_cons_inv {A B} (f : A -> M B) a l st bs st2 :
  mapM f (a :: l) st = Some (Ok bs, st2) ->
  exists b bs' st1,
    bs = b :: bs' /\ f a st = Some (Ok b, st1) /\ mapM f l st1 = Some (Ok bs', st2).
Proof.
  simpl. unfold bind at 1.
  destruct (f a st) as [[[b|e] st1]|] eqn:Ea; try discriminate.
  unfold bind. destruct (mapM f l st1) as [[[bs'|e] st2']|] eqn:El; try discriminate.
  intros [= <- <-]. exists b, bs', st1. split; [reflexivity|]. split; [reflexivity|exact El].
Qed.

Lemma mapM_stops {A B} (f : A -> M B) done : forall st bs st2 a later e st3,
  mapM f done st = Some (Ok bs, st2) ->
  f a st2 = Some (Raise e, st3) ->
  mapM f (done ++ a :: later) st = Some (Raise e, st3).
Proof.
  induction done as [|d done IH]; intros st bs st2 a later e st3 Hd Ha.
  - inversion Hd; subst. simpl. apply (bind_raise _ _ _ _ _ Ha).
  - apply mapM_cons_inv in Hd. destruct Hd as (b & bs' & st1 & -> & Hb & Hrest).
    change ((d :: done) ++ a :: later) with (d :: (done ++ a :: later)).
    simpl. rewrite (bind_ok _ _ _ _ _ Hb).
    apply bind_raise. eapply IH; eassumption.
Qed.

Lemma eval_some_fuel n x env st r : eval host n x env st = Some r -> exists m, n = S m.
Proof. destruct n; [discriminate|eauto]. Qed.

(** X13.  An application that fails.  If the operator raises, the form
    raises the same and no argument is evaluated; if an argument raises,
    the form raises the same in the state that argument left, the
    arguments after it are not evaluated and nothing is called; if all
    evaluate but the operator's value is not callable, the form raises
    [TypeError] after the arguments have been evaluated. *)
Theorem application_errors
    (n : nat) (x0 : expr) (rest : list expr) (env : loc) (st : state) :
  is_special x0 = false ->
  (forall e st1,
      eval host n x0 env st = Some (Raise e, st1) ->
      eval host (S n) (Lst (x0 :: rest)) env st = Some (Raise e, st1)) /\
  (forall proc st1 done arg later vs st2 e st3,
      eval host n x0 env st = Some (Ok proc, st1) ->
      rest = done ++ arg :: later ->
      mapM (fun a => eval host n a env) done st1 = Some (Ok vs, st2) ->
      eval host n arg env st2 = Some (Raise e, st3) ->
      eval host (S n) (Lst (x0 :: rest)) env st = Some (Raise e, st3)) /\
  (forall proc st1 args st2,
      eval host n x0 env st = Some (Ok proc, st1) ->
      mapM (fun a => eval host n a env) rest st1 = Some (Ok args, st2) ->
      callable proc = false ->
      eval host (S n) (Lst (x0 :: rest)) env st = Some (Raise TypeError, st2)).
Proof.
  intros Hs. rewrite (eval_call_S host n x0 rest env Hs). split; [|split].
  - intros e st1 H. apply (bind_raise _ _ _ _ _ H).
  - intros proc st1 done arg later vs st2 e st3 Hp -> Hd Ha.
    rewrite (bind_ok _ _ _ _ _ Hp). apply bind_raise.
    apply (mapM_stops _ _ _ _ _ _ _ _ _ Hd Ha).
  - intros proc st1 args st2 Hp Ha Hc.
    rewrite (bind_ok _ _ _ _ _ Hp), (bind_ok _ _ _ _ _ Ha).
    destruct (eval_some_fuel _ _ _ _ _ Hp) as [m ->].
    destruct proc; try discriminate; reflexivity.
Qed.

(** *** [begin] *)

(** X14.  [begin] is a procedure: the form evaluates its operands from left
    to right in the current environment and returns the value of the
    last; with no operand it raises [IndexError]. *)
Theorem begin_returns_the_last_value
    (n : nat) (x0 : expr) (rest : list expr) (env : loc) (st st1 st2 : state)
    (vs : list val) :
  is_special x0 = false ->
  eval host n x0 env st = Some (Ok (VBuiltin lam_begin), st1) ->
  mapM (fun a => eval host n a env) rest st1 = Some (Ok vs, st2) ->
  eval host (S n) (Lst (x0 :: rest)) env st
  = Some (match last vs with Some v => Ok v | None => Raise IndexError end, st2) /\
  (rest = [] -> eval host (S n) (Lst (x0 :: rest)) env st = Some (Raise IndexError, st1)).
Proof.
  intros Hs Hp Ha.
  destruct (eval_some_fuel _ _ _ _ _ Hp) as [m ->].
  rewrite (eval_call_rule host _ _ _ _ _ _ _ _ _ Hs Hp Ha).
  rewrite (call_spelled_out host m lam_begin vs _ st2 eq_refl).
  split; [reflexivity|]. intros ->. inversion Ha; subst. reflexivity.
Qed.

(** *** The standard environment *)

Lemma eval_symbol_top n s env st e :
  heap st !! env = Some e -> outer e = None ->
  eval host (S (S n)) (Symbol s) env st
  = Some (match dict_get (Symbol s) (dict e) with
          | Some v => Ok v
          | None => Raise AttributeError
          end, st).
Proof.
  intros He Ho. destruct (dict_get (Symbol s) (dict e)) as [v|] eqn:Hv.
  - apply (eval_symbol_here host n s env st e v He Hv).
  - rewrite eval_S. unfold eval_step. apply bind_raise.
    apply (find_top n (Symbol s) env st e He eq_refl); [|exact Ho].
    unfold dict_mem. rewrite Hv. reflexivity.
Qed.

(** X15.  In the standard environment a name has the entry of the table of
    [standard_env] when the table has one, otherwise the entry of
    [vars(math)], and is unbound otherwise; a symbol evaluates
    accordingly in the global environment, an unbound one raising
    [AttributeError]. *)
Theorem standard_env_lookup (n : nat) (k : string) :
  let entry := match table_get k standard_table with
               | Some v => Some v
               | None => table_get k (math_vars host)
               end in
  dict_get (Symbol k) (standard_dict host) = entry /\
  eval host (2 + n) (Symbol k) global_env (initial_state host)
  = Some (match entry with Some v => Ok v | None => Raise AttributeError end,
          initial_state host).
Proof.
  intros entry.
  assert (H : dict_get (Symbol k) (standard_dict host) = entry).
  { unfold standard_dict, entry. rewrite !dict_update_str_get.
    destruct (table_get k standard_table); [reflexivity|].
    destruct (table_get k (math_vars host)); reflexivity. }
  split; [exact H|]. rewrite <- H.
  apply (eval_symbol_top n k global_env (initial_state host)
           (mkEnv (standard_dict host) None)); reflexivity.
Qed.

(** *** The list primitives *)

(** X16.  [car] and [cdr] take apart what [cons] builds, [length] counts
    what [list] and [append] build; on the empty list [car] raises
    [IndexError] while [cdr] returns the empty list.  None of them
    touches the state. *)
Theorem list_primitives (n : nat) (v : val) (l l' : list val) (st : state) :
  let run b args := call host (S n) (VBuiltin b) args in
  (c <- run lam_cons [v; VList l] ;; run lam_car [c]) st = Some (Ok v, st) /\
  (c <- run lam_cons [v; VList l] ;; run lam_cdr [c]) st = Some (Ok (VList l), st) /\
  (c <- run lam_cons [v; VList l] ;; run lam_nullp [c]) st = Some (Ok (VBool false), st) /\
  (c <- run lam_list l ;; run py_len [c]) st
  = Some (Ok (VInt (Z.of_nat (length l))), st) /\
  (c <- run op_add [VList l; VList l'] ;; run py_len [c]) st
  = Some (Ok (VInt (Z.of_nat (length l) + Z.of_nat (length l'))), st) /\
  run lam_car [VList []] st = Some (Raise IndexError, st) /\
  run lam_cdr [VList []] st = Some (Ok (VList []), st) /\
  run lam_nullp [VList []] st = Some (Ok (VBool true), st).
Proof.
  intros run. unfold run.
  repeat split;
    try (erewrite bind_ok by (apply call_spelled_out; reflexivity));
    try (apply call_spelled_out; reflexivity).
  rewrite (call_spelled_out host n py_len [VList (l ++ l')]
             (Ok (VInt (Z.of_nat (length (l ++ l'))))) st eq_refl).
  rewrite length_app, Nat2Z.inj_add. reflexivity.
Qed.

(** X17.  [number?] never answers: its body names [Number], which the
    module does not define, so the call raises [NameError] for every
    argument; in the standard environment [(number? x)] raises it as soon
    as [x] has been evaluated. *)
Theorem number_predicate_raises_NameError (n : nat) :
  (forall v st,
      call host (S n) (VBuiltin lam_numberp) [v] st = Some (Raise NameError, st)) /\
  (forall x v st1,
      eval host (2 + n) x global_env (initial_state host) = Some (Ok v, st1) ->
      eval host (3 + n) (Lst [Symbol "number?"; x]) global_env (initial_state host)
      = Some (Raise NameError, st1)).
Proof.
  split.
  - intros v st. apply call_spelled_out. reflexivity.
  - intros x v st1 Hx. simpl plus in *.
    assert (Hp : eval host (S (S n)) (Symbol "number?") global_env (initial_state host)
                 = Some (Ok (VBuiltin lam_numberp), initial_state host)).
    { eapply eval_symbol_here; [reflexivity|].
      apply standard_dict_get. reflexivity. }
    rewrite (eval_call_rule host _ (Symbol "number?") [x] _ _ _ _ [v] st1 eq_refl Hp).
    + apply call_spelled_out. reflexivity.
    + simpl. rewrite (bind_ok _ _ _ _ _ Hx). reflexivity.
Qed.

(** *** Parameter lists that are not lists of symbols *)

Lemma dict_update_hashable pairs : forall d,
  Forall (fun kv : expr * val => hashable (fst kv) = true) pairs ->
  exists d', dict_update d pairs = Ok d'.
Proof.
  induction pairs as [|[k v] pairs IH]; intros d H; [eexists; reflexivity|].
  inversion H as [|? ? Hk Hr]; subst. simpl in *. rewrite Hk. apply IH, Hr.
Qed.

Lemma dict_update_unhashable pairs : forall d,
  Exists (fun kv : expr * val => hashable (fst kv) = false) pairs ->
  dict_update d pairs = Raise TypeError.
Proof.
  induction pairs as [|[k v] pairs IH]; intros d H; [inversion H|].
  simpl. destruct (hashable k) eqn:Hk; [|reflexivity].
  inversion H as [? ? Hk'|? ? Hr]; subst; [simpl in Hk'; congruence|].
  apply IH, Hr.
Qed.

(** X19.  Creating an environment raises [TypeError], and allocates
    nothing, exactly when the parameter list is a number or one of the
    parameters that gets an argument is itself a list; in every other
    case (a list of atoms of any length, or a symbol, whose characters
    are the parameters) it allocates a frame. *)
Theorem Env_init_raises_TypeError_exactly
    (parms : expr) (args : list val) (outer : option loc) (st : state) :
  (bad_parms parms args ->
   Env_init parms args outer st = Some (Raise TypeError, st)) /\
  (~ bad_parms parms args ->
   exists d, Env_init parms args outer st
             = Some (Ok (length (heap st)),
                     mkState (heap st ++ [mkEnv d outer]) (clock st))).
Proof.
  assert (Hok : forall names,
             iter_expr parms = Ok names ->
             Forall (fun kv : expr * val => hashable (fst kv) = true)
                    (combine names args) ->
             exists d, Env_init parms args outer st
                       = Some (Ok (length (heap st)),
                               mkState (heap st ++ [mkEnv d outer]) (clock st))).
  { intros names Hn Hf. destruct (dict_update_hashable _ [] Hf) as [d Hd].
    exists d. unfold Env_init, zip, lift, bind. rewrite Hn, Hd. reflexivity. }
  destruct parms as [z|f|s|names]; simpl bad_parms.
  - split; [reflexivity|tauto].
  - split; [reflexivity|tauto].
  - split; [tauto|]. intros _. eapply Hok; [reflexivity|].
    apply List.Forall_forall. intros [k v] Hin. apply in_combine_l in Hin.
    apply in_map_iff in Hin. destruct Hin as (c & <- & _). reflexivity.
  - split.
    + intros (i & x & v & Hx & Hv & Hh).
      unfold Env_init, zip, lift, bind. simpl iter_expr. cbv iota.
      rewrite dict_update_unhashable; [reflexivity|].
      apply List.Exists_exists. exists (x, v). split; [|exact Hh].
      apply list_elem_of_In. eapply list_elem_of_lookup_2.
      apply combine_lookup. split; eassumption.
    + intros Hbad. eapply Hok; [reflexivity|].
      apply List.Forall_forall. intros [k v] Hin.
      destruct (hashable k) eqn:Hk; [exact Hk|]. exfalso. apply Hbad.
      apply list_elem_of_In, list_elem_of_lookup_1 in Hin. destruct Hin as [i Hi].
      apply combine_lookup in Hi. destruct Hi as [Hx Hv]. exists i, k, v. auto.
Qed.

(** *** [apply] and [map] *)

Lemma map_rows_one (l : list val) : map_rows [l] = List.map (fun a => [a]) l.
Proof.
  unfold map_rows. simpl fold_right. rewrite Nat.max_0_r.
  assert (H : forall pre,
             List.map (fun i => List.map (fun s => nth i s VNone) [pre ++ l])
               (seq (length pre) (length l))
             = List.map (fun a => [a]) l).
  { induction l as [|a l IH]; intros pre; [reflexivity|].
    simpl. f_equal.
    - rewrite app_nth2 by lia. rewrite Nat.sub_diag. reflexivity.
    - specialize (IH (pre ++ [a])). rewrite <- app_assoc in IH. simpl in IH.
      rewrite length_app in IH. simpl in IH. rewrite Nat.add_1_r in IH. exact IH. }
  apply (H []).
Qed.

Lemma mapM_length {A B} (f : A -> M B) l : forall st bs st',
  mapM f l st = Some (Ok bs, st') -> length bs = length l.
Proof.
  induction l as [|a l IH]; intros st bs st' H.
  - inversion H; reflexivity.
  - apply mapM_cons_inv in H. destruct H as (b & bs' & st1 & -> & _ & Hl).
    simpl. f_equal. eapply IH, Hl.
Qed.

(** X18.  [(apply f args)] calls [f] on the elements of [args].  [map]
    over one list calls the function on each element, from left to
    right, and returns the list of the results, which is as long as the
    argument; with [None] for the function it returns the list. *)
Theorem apply_and_map (n : nat) (f : val) (l : list val) (st : state) :
  call host (S n) (VBuiltin py_apply) [f; VList l] st = call host n f l st /\
  (f <> VNone ->
   call host (S n) (VBuiltin py_map) [f; VList l] st
   = (vs <- mapM (fun a => call host n f [a]) l ;; ret (VList vs)) st) /\
  (f <> VNone ->
   forall r st', call host (S n) (VBuiltin py_map) [f; VList l] st = Some (Ok r, st') ->
                 exists vs, r = VList vs /\ length vs = length l) /\
  call host (S n) (VBuiltin py_map) [VNone; VList l] st = Some (Ok (VList l), st).
Proof.
  assert (Hmap : f <> VNone ->
            call host (S n) (VBuiltin py_map) [f; VList l] st
            = (vs <- mapM (fun a => call host n f [a]) l ;; ret (VList vs)) st).
  { intros Hf. rewrite call_S.
    change (call_step host (eval host n) (call host n) (VBuiltin py_map) [f; VList l])
      with (map_step (call host n) [f; VList l]).
    assert (Hm : forall g : list val -> M val,
               mapM g (map_rows [l]) = mapM (fun a => g [a]) l).
    { intros g. rewrite map_rows_one. clear. induction l as [|a l IH]; [reflexivity|].
      simpl. rewrite IH. reflexivity. }
    destruct f; try (exfalso; apply Hf; reflexivity);
      unfold map_step; simpl iter_all; unfold lift, bind at 1; rewrite Hm; reflexivity. }
  split; [reflexivity|]. split; [exact Hmap|]. split; [|reflexivity].
  intros Hf r st' H. rewrite (Hmap Hf) in H. unfold bind in H.
  destruct (mapM (fun a => call host n f [a]) l st) as [[[vs|e] st1]|] eqn:E;
    try discriminate.
  inversion H; subst. exists vs. split; [reflexivity|]. eapply mapM_length, E.
Qed.

End More.

(** ** What evaluation keeps *)

Lemma frame_kept_refl e : frame_kept e e.
Proof. split; auto. Qed.

Lemma heap_grows_refl st : heap_grows st st.
Proof. intros l e H. exists e. split; [exact H|apply frame_kept_refl]. Qed.

Lemma heap_grows_trans st1 st2 st3 :
  heap_grows st1 st2 -> heap_grows st2 st3 -> heap_grows st1 st3.
Proof.
  intros H12 H23 l e H. destruct (H12 l e H) as (e2 & H2 & [Ho2 Hm2]).
  destruct (H23 l e2 H2) as (e3 & H3 & [Ho3 Hm3]).
  exists e3. split; [exact H3|]. split; [congruence|auto].
Qed.

Lemma dict_mem_set k k' v d :
  dict_mem k d = true -> dict_mem k (dict_set k' v d) = true.
Proof.
  unfold dict_mem. induction d as [|[k0 v0] d IH]; cbn [dict_get dict_set];
    [discriminate|].
  destruct (key_eqb k0 k') eqn:E; cbn [dict_get];
    destruct (key_eqb k0 k); auto.
Qed.

Lemma keeps_ret {A} (a : A) : keeps (ret a).
Proof. intros st r st' [= <- <-]. apply heap_grows_refl. Qed.

Lemma keeps_raise {A} e : keeps (@raise A e).
Proof. intros st r st' [= <- <-]. apply heap_grows_refl. Qed.

Lemma keeps_lift {A} (o : outcome A) : keeps (lift o).
Proof. intros st r st' [= <- <-]. apply heap_grows_refl. Qed.

Lemma keeps_no_result {A} : keeps (@no_result A).
Proof. intros st r st' H. discriminate. Qed.

Lemma keeps_bind {A B} (m : M A) (k : A -> M B) :
  keeps m -> (forall a, keeps (k a)) -> keeps (bind m k).
Proof.
  intros Hm Hk st r st' H. unfold bind in H.
  destruct (m st) as [[[a|e] st1]|] eqn:E; [| |discriminate].
  - eapply heap_grows_trans; [eapply Hm, E|eapply Hk, H].
  - inversion H; subst. eapply Hm, E.
Qed.

Lemma keeps_mapM {A B} (f : A -> M B) l :
  (forall a, keeps (f a)) -> keeps (mapM f l).
Proof.
  intros Hf. induction l as [|a l IH]; simpl; [apply keeps_ret|].
  apply keeps_bind; [apply Hf|]. intros b.
  apply keeps_bind; [exact IH|]. intros bs. apply keeps_ret.
Qed.

Lemma keeps_deref l : keeps (deref l).
Proof.
  intros st r st' H. unfold deref in H. destruct (heap st !! l); [|discriminate].
  inversion H; subst. apply heap_grows_refl.
Qed.

Lemma keeps_alloc e : keeps (alloc e).
Proof.
  intros st r st' [= <- <-] l e0 H. exists e0. split; [|apply frame_kept_refl].
  simpl. apply lookup_app_l_Some, H.
Qed.

Lemma keeps_Env_init parms args o : keeps (Env_init parms args o).
Proof.
  unfold Env_init. apply keeps_bind; [apply keeps_lift|]. intros pairs.
  apply keeps_bind; [apply keeps_lift|]. intros d. apply keeps_alloc.
Qed.

Lemma keeps_Env_setitem self k v : keeps (Env_setitem self k v).
Proof.
  unfold Env_setitem. intros st r st' H. unfold bind, deref in H.
  destruct (heap st !! self) as [e|] eqn:E; [|discriminate].
  destruct (hashable k); [|inversion H; subst; apply heap_grows_refl].
  inversion H; subst. intros l e0 H0. simpl.
  destruct (decide (l = self)) as [Heq|Hne].
  - subst l. assert (Hs : Some e0 = Some e)
      by (transitivity (heap st !! self); [symmetry; exact H0|exact E]).
    inversion Hs; subst e0.
    eexists. split; [apply list_lookup_insert_eq; eapply lookup_lt_Some, E|].
    split; [reflexivity|]. simpl. intros k0. apply dict_mem_set.
  - exists e0. split; [|apply frame_kept_refl].
    rewrite list_lookup_insert_ne by congruence. exact H0.
Qed.

Lemma keeps_Env_getitem self k : keeps (Env_getitem self k).
Proof.
  unfold Env_getitem. apply keeps_bind; [apply keeps_deref|]. intros e.
  destruct (hashable k); [|apply keeps_raise].
  destruct (dict_get k (dict e)); [apply keeps_ret|apply keeps_raise].
Qed.

Lemma keeps_find_step rec var self :
  (forall v l, keeps (rec v l)) -> keeps (find_step rec var self).
Proof.
  intros Hr. unfold find_step. apply keeps_bind; [apply keeps_deref|]. intros e.
  destruct (hashable var); [|apply keeps_raise].
  destruct (dict_mem var (dict e)); [apply keeps_ret|].
  destruct (outer e); [apply Hr|apply keeps_raise].
Qed.

Lemma keeps_find n : forall var self, keeps (find n var self).
Proof.
  induction n as [|n IH]; intros var self; [apply keeps_no_result|].
  apply keeps_find_step, IH.
Qed.

Section Keeps.
Variable host : runtime.

Lemma keeps_call_native b args : keeps (call_native host b args).
Proof.
  unfold call_native. destruct (spelled_out b args); [apply keeps_lift|].
  intros st r st' [= <- <-] l e H. exists e. split; [exact H|apply frame_kept_refl].
Qed.

Lemma keeps_call_step ev cl proc args :
  (forall x env, keeps (ev x env)) -> (forall p a, keeps (cl p a)) ->
  keeps (call_step host ev cl proc args).
Proof.
  intros Hev Hcl. destruct proc as [| | | | | | |parms body env|b]; simpl;
    try apply keeps_raise.
  - apply keeps_bind; [apply keeps_Env_init|]. intros e. apply Hev.
  - assert (Hmap : keeps (map_step cl args)).
    { unfold map_step. destruct args as [|f [|s seqs]]; try apply keeps_raise;
        [destruct f; apply keeps_raise|].
      assert (Hgen : keeps
        (ls <- lift (iter_all (s :: seqs));;
         match f with
         | VNone => ret (VList (List.map VTuple (map_rows ls)))
         | _ => vs <- mapM (cl f) (map_rows ls);; ret (VList vs)
         end)).
      { apply keeps_bind; [apply keeps_lift|]. intros ls.
        destruct f; try apply keeps_ret;
          (apply keeps_bind; [apply keeps_mapM; intros; apply Hcl|]);
          intros; apply keeps_ret. }
      destruct f; try exact Hgen. destruct seqs; [|exact Hgen].
      apply keeps_bind; [apply keeps_lift|]. intros; apply keeps_ret. }
    assert (Happ : keeps (apply_step cl args)).
    { unfold apply_step. destruct args as [|f [|a [|? ?]]]; try apply keeps_raise.
      - apply Hcl.
      - apply keeps_bind; [apply keeps_lift|]. intros l. apply Hcl. }
    destruct b; try apply keeps_call_native; assumption.
Qed.

Lemma keeps_eval_step ev cl fnd x env :
  (forall x env, keeps (ev x env)) -> (forall p a, keeps (cl p a)) ->
  (forall v l, keeps (fnd v l)) ->
  keeps (eval_step ev cl fnd x env).
Proof.
  intros Hev Hcl Hfnd. destruct x as [z|f|s|l]; simpl; try apply keeps_ret.
  - apply keeps_bind; [apply Hfnd|]. intros e. apply keeps_Env_getitem.
  - destruct l as [|x0 rest]; [apply keeps_raise|].
    destruct (is_keyword x0 "quote").
    { unfold eval_quote. destruct rest as [|a [|? ?]];
        try apply keeps_raise; apply keeps_ret. }
    destruct (is_keyword x0 "if").
    { unfold eval_if. destruct rest as [|t [|c [|a [|? ?]]]]; try apply keeps_raise.
      apply keeps_bind; [apply Hev|]. intros v. apply Hev. }
    destruct (is_keyword x0 "define").
    { unfold eval_define. destruct rest as [|t [|c [|? ?]]]; try apply keeps_raise.
      apply keeps_bind; [apply Hev|]. intros v.
      apply keeps_bind; [apply keeps_Env_setitem|]. intros; apply keeps_ret. }
    destruct (is_keyword x0 "set!").
    { unfold eval_set. destruct rest as [|t [|c [|? ?]]]; try apply keeps_raise.
      apply keeps_bind; [apply Hev|]. intros v.
      apply keeps_bind; [apply Hfnd|]. intros e.
      apply keeps_bind; [apply keeps_Env_setitem|]. intros; apply keeps_ret. }
    destruct (is_keyword x0 "lambda").
    { unfold eval_lambda. destruct rest as [|t [|c [|? ?]]];
        try apply keeps_raise; apply keeps_ret. }
    unfold eval_call. apply keeps_bind; [apply Hev|]. intros proc.
    apply keeps_bind; [apply keeps_mapM; intros; apply Hev|].
    intros args. apply Hcl.
Qed.

Lemma keeps_eval_call n :
  (forall x env, keeps (eval host n x env)) /\
  (forall proc args, keeps (call host n proc args)).
Proof.
  induction n as [|n [IHe IHc]]; [split; intros; apply keeps_no_result|].
  split.
  - intros x env. apply keeps_eval_step; [exact IHe|exact IHc|apply keeps_find].
  - intros proc args. apply keeps_call_step; [exact IHe|exact IHc].
Qed.

Lemma heap_grows_chain st st' env ls :
  heap_grows st st' -> chain (heap st) env ls -> chain (heap st') env ls.
Proof.
  intros Hg. induction 1 as [l e He Ho|l e o ls He Ho Hc IH];
    destruct (Hg l e He) as (e' & He' & [Ho' _]).
  - eapply chain_top; [exact He'|rewrite Ho'; exact Ho].
  - eapply chain_up; [exact He'|rewrite Ho'; exact Ho|exact IH].
Qed.

Lemma heap_grows_length st st' :
  heap_grows st st' -> length (heap st) <= length (heap st').
Proof.
  intros Hg. destruct (Nat.le_gt_cases (length (heap st)) (length (heap st')))
    as [H|H]; [exact H|].
  destruct (lookup_lt_is_Some_2 (heap st) (length (heap st'))) as [e He]; [lia|].
  destruct (Hg _ _ He) as (e' & He' & _). apply lookup_lt_Some in He'. lia.
Qed.

Lemma heap_grows_bound st st' k l :
  heap_grows st st' -> bound_in (heap st) k l = true -> bound_in (heap st') k l = true.
Proof.
  intros Hg. unfold bound_in. destruct (heap st !! l) as [e|] eqn:E; [|discriminate].
  destruct (Hg l e E) as (e' & -> & [_ Hm]). apply Hm.
Qed.

(** X20.  Evaluation, whether it returns or raises, never removes an
    environment and never changes the [outer] of one: the heap only
    grows, and every chain of frames is the same chain afterwards. *)
Theorem evaluation_keeps_the_frames
    (n : nat) (x : expr) (env : loc) (st st' : state) (r : outcome val) :
  eval host n x env st = Some (r, st') ->
  length (heap st) <= length (heap st') /\
  (forall (l : loc) e, heap st !! l = Some e ->
                       exists e', heap st' !! l = Some e' /\ outer e' = outer e) /\
  (forall env' ls, chain (heap st) env' ls -> chain (heap st') env' ls).
Proof.
  intros H. pose proof (proj1 (keeps_eval_call n) x env st r st' H) as Hg.
  split; [apply heap_grows_length, Hg|]. split.
  - intros l e He. destruct (Hg l e He) as (e' & He' & [Ho _]).
    exists e'. split; assumption.
  - intros env' ls. apply heap_grows_chain, Hg.
Qed.

(** X21.  Evaluation, whether it returns or raises, never unbinds a name:
    what a frame binds before, it binds after (to the same value or to
    another). *)
Theorem evaluation_keeps_the_bindings
    (n : nat) (x : expr) (env : loc) (st st' : state) (r : outcome val) :
  eval host n x env st = Some (r, st') ->
  forall k (l : loc), bound_in (heap st) k l = true -> bound_in (heap st') k l = true.
Proof.
  intros H k l. apply heap_grows_bound.
  apply (proj1 (keeps_eval_call n) x env st r st' H).
Qed.

End Keeps.

(** ** The read-eval-print loop *)

Section Repl.
Variable host : runtime.
Variable str_other : val -> string.

Lemma repl_accepted fuel prompt lines st out st1 rest :
  accepted host str_other fuel prompt lines st out st1 ->
  repl host str_other fuel prompt (lines ++ rest) st
  = match repl host str_other fuel prompt rest st1 with
    | Some (out', e, st2) => Some (out ++ out', e, st2)
    | None => None
    end.
Proof.
  induction 1 as [st|line lines x v st st1 out st2 Hp He Ha IH].
  - simpl app. destruct (repl host str_other fuel prompt rest st) as [[[o e] s]|];
      reflexivity.
  - change ((line :: lines) ++ rest) with (line :: (lines ++ rest)).
    cbn [repl]. rewrite Hp, He, IH.
    destruct (repl host str_other fuel prompt rest st2) as [[[o e] s]|];
      [|reflexivity].
    rewrite <- app_comm_cons, <- app_assoc. reflexivity.
Qed.

(** X22.  The loop reads on while the lines are accepted, threading the
    state from one line to the next, and ends with the first exception:
    [EOFError] after one more prompt when the input is used up, the
    [SyntaxError] or [IndexError] of a line that does not read, or
    whatever a line raises when it is evaluated; the lines after that one
    are never read. *)
Theorem repl_ends_with_the_first_exception
    (fuel : nat) (prompt : string) (lines : list string) (st st1 : state)
    (out : list event) :
  accepted host str_other fuel prompt lines st out st1 ->
  repl host str_other fuel prompt lines st
  = Some (out ++ [Prompt prompt], OtherError "EOFError", st1) /\
  (forall line e later,
      parse host line = Some (Raise e) ->
      repl host str_other fuel prompt (lines ++ line :: later) st
      = Some (out ++ [Prompt prompt], e, st1)) /\
  (forall line x e st2 later,
      parse host line = Some (Ok x) ->
      eval host fuel x global_env st1 = Some (Raise e, st2) ->
      repl host str_other fuel prompt (lines ++ line :: later) st
      = Some (out ++ [Prompt prompt], e, st2)) /\
  (forall more out' st2,
      accepted host str_other fuel prompt more st1 out' st2 ->
      accepted host str_other fuel prompt (lines ++ more) st (out ++ out') st2).
Proof.
  intros Ha. split; [|split; [|split]].
  - rewrite <- (app_nil_r lines) at 1. rewrite (repl_accepted _ _ _ _ _ _ [] Ha).
    reflexivity.
  - intros line e later Hp. rewrite (repl_accepted _ _ _ _ _ _ _ Ha).
    cbn [repl]. rewrite Hp. reflexivity.
  - intros line x e st2 later Hp He. rewrite (repl_accepted _ _ _ _ _ _ _ Ha).
    cbn [repl]. rewrite Hp, He. reflexivity.
  - intros more out' st2 Hm. induction Ha as [st|line lines x v st st1 o st3 Hp He Ha IH].
    + exact Hm.
    + change ((line :: lines) ++ more) with (line :: (lines ++ more)).
      rewrite <- app_comm_cons, <- app_assoc.
      eapply accepted_cons; [exact Hp|exact He|apply IH, Hm].
Qed.

Lemma quoted_not_None x : quoted x <> VNone.
Proof. destruct x; discriminate. Qed.

Lemma print_value_quoted x :
  print_value str_other (quoted x) = [Print (schemestr str_other (quoted x))].
Proof. destruct x; reflexivity. Qed.

(** X23.  Read, evaluate, print: for a datum [x] that can be printed, the
    line that spells [(quote x)] makes the loop print a text that reads
    back as [x], and leaves the state as it was. *)
Theorem repl_echoes_quoted_data
    (n : nat) (prompt : string) (x : expr) (st : state) :
  printable host (Lst [Symbol "quote"; x]) ->
  let line := schemestr str_other (quoted (Lst [Symbol "quote"; x])) in
  let text := schemestr str_other (quoted x) in
  line = ("(quote " ++ text ++ ")")%string /\
  repl host str_other (S n) prompt [line] st
  = Some ([Prompt prompt; Print text; Prompt prompt], OtherError "EOFError", st) /\
  parse host text = Some (Ok x).
Proof.
  intros Hp line text.
  assert (Hx : printable host x).
  { apply printable_Lst in Hp. inversion Hp as [|? ? _ Hr]; subst.
    inversion Hr; subst. assumption. }
  split; [reflexivity|]. split.
  - cbn [repl]. unfold line.
    rewrite (parse_schemestr_printable host str_other _ Hp).
    change (eval host (S n) (Lst [Symbol "quote"; x]) global_env st)
      with (Some (Ok (quoted x), st)).
    cbv iota. rewrite print_value_quoted. reflexivity.
  - apply (parse_schemestr_printable host str_other _ Hx).
Qed.

End Repl.

(** ** Closed instances *)

(** C1, as stated, fails: with parameters [(a b)] and the one argument
    [1], the environment is created, [a] bound and [b] left out, and the
    call [((lambda (a b) a) 1)] returns [1]; nothing is raised.  (The
    call returns [1] on every host: [call_with_one_argument_runs].) *)
Lemma Env_init_accepts_a_count_mismatch :
  Env_init (Lst [Symbol "a"; Symbol "b"]) [VInt 1] None (mkState [] 0)
  = Some (Ok 0, mkState [mkEnv [(Symbol "a", VInt 1)] None] 0) /\
  parse plain_host "((lambda (a b) a) 1)" = Some (Ok call_with_one_argument) /\
  fst <$> eval plain_host 6 call_with_one_argument global_env
            (initial_state plain_host)
  = Some (Ok (VInt 1)).
Proof. repeat split; vm_compute; reflexivity. Qed.

Lemma Env_init_pairs_up_to_the_shorter_witness :
  (exists d,
      Env_init (Lst [Symbol "a"; Symbol "b"]) [VInt 1] None (mkState [] 0)
      = Some (Ok 0, mkState [mkEnv d None] 0) /\
      dict_get (Symbol "a") d = Some (VInt 1) /\
      dict_get (Symbol "b") d = None) /\
  (exists d,
      Env_init (Lst [Symbol "a"; Symbol "a"]) [VInt 1; VInt 2] None (mkState [] 0)
      = Some (Ok 0, mkState [mkEnv d None] 0) /\
      dict_get (Symbol "a") d = Some (VInt 2)).
Proof.
  split.
  - destruct (Env_init_pairs_up_to_the_shorter plain_host ["a"; "b"] [VInt 1] None
                (mkState [] 0))
      as (d & Hd & _ & _ & Hget & _).
    assert (Hnd : List.NoDup ["a"; "b"]).
    { constructor; [simpl; intros [H|[]]; discriminate|].
      constructor; [simpl; tauto|constructor]. }
    exists d. split; [exact Hd|]. split.
    + apply (Hget Hnd 0 "a" eq_refl).
    + apply (Hget Hnd 1 "b" eq_refl).
  - destruct (Env_init_pairs_up_to_the_shorter plain_host ["a"; "a"]
                [VInt 1; VInt 2] None (mkState [] 0))
      as (d & Hd & Hlast & _).
    exists d. split; [exact Hd|].
    apply Hlast. exists 1. split; [reflexivity|]. split; [reflexivity|].
    intros j H1 H2. simpl in H2. lia.
Defined.

(** C3, as stated, fails twice: the error of an unbound symbol is an
    [AttributeError], and [(set! x (define x 1))], whose target [x] is
    bound nowhere, returns normally, as its value expression binds [x]
    before [find] runs (on every host: [set_define_runs]). *)
Lemma unbound_symbol_is_AttributeError :
  fst <$> eval plain_host 3 (Symbol "undefined-name") global_env
            (initial_state plain_host)
  = Some (Raise AttributeError) /\
  exn_class AttributeError <> "UnboundVariableError" /\
  chain (heap (initial_state plain_host)) global_env [global_env] /\
  innermost (heap (initial_state plain_host)) (Symbol "x") [global_env] = None /\
  fst <$> eval plain_host 4 set_define global_env (initial_state plain_host)
  = Some (Ok VNone).
Proof.
  split; [vm_compute; reflexivity|]. split; [discriminate|].
  split; [eapply chain_top; reflexivity|].
  split; vm_compute; reflexivity.
Qed.

Lemma find_resolves_or_raises_witness :
  eval plain_host 2 (Symbol "undefined-name") global_env (initial_state plain_host)
  = Some (Raise AttributeError, initial_state plain_host).
Proof.
  assert (Hc : chain (heap (initial_state plain_host)) global_env [global_env]).
  { eapply chain_top; reflexivity. }
  destruct (find_resolves_or_raises plain_host 1 global_env
              (initial_state plain_host) [global_env] Hc (le_n 1))
    as (_ & _ & H & _).
  apply H. reflexivity.
Defined.

(** C5, as stated, fails: the test [(define x 1)] evaluates to [None],
    which is none of false, zero and the empty list, and the form takes
    its alternate (on every host: [if_define_runs]). *)
Lemma if_takes_the_alternate_on_None :
  fst <$> eval plain_host 3 define_x_1 global_env (initial_state plain_host)
  = Some (Ok VNone) /\
  truthy_as_specified VNone = true /\
  fst <$> eval plain_host 4 if_define global_env (initial_state plain_host)
  = Some (Ok (VInt 20)).
Proof. repeat split; vm_compute; reflexivity. Qed.

Lemma if_evaluates_one_branch_witness :
  eval plain_host 2 (Lst [Symbol "if"; Int 0; Int 10; Int 20]) global_env
    (initial_state plain_host)
  = eval plain_host 1 (Int 20) global_env (initial_state plain_host).
Proof.
  destruct (if_evaluates_one_branch plain_host 1 (Int 0) (Int 10) (Int 20)
              global_env (initial_state plain_host)) as (_ & H & _).
  destruct (H (VInt 0) (initial_state plain_host) eq_refl) as [_ H0].
  apply (H0 eq_refl).
Defined.

(** C6, as stated, fails: evaluating [(define a (set! b 1))] in the
    inner frame changes the binding of [b] in the outer frame, as the
    value expression does (on every host: [define_a_set_b_runs]). *)
Lemma define_value_changes_an_ancestor :
  chain (heap two_frames) 1 [1; 0] /\
  eval plain_host 4 define_a_set_b 1 two_frames
  = Some (Ok VNone,
          mkState [mkEnv [(Symbol "b", VInt 1)] None;
                   mkEnv [(Symbol "a", VNone)] (Some 0)] 0) /\
  dict_get (Symbol "b") [(Symbol "b", VInt 1)]
  <> dict_get (Symbol "b") [(Symbol "b", VInt 0)].
Proof.
  split; [eapply chain_up; [reflexivity|reflexivity|eapply chain_top; reflexivity]|].
  split; [vm_compute; reflexivity|discriminate].
Qed.

Lemma define_writes_current_frame_witness :
  eval plain_host 2 (Lst [Symbol "define"; Symbol "b"; Int 5]) 1 two_frames
  = Some (Ok VNone,
          mkState [mkEnv [(Symbol "b", VInt 0)] None;
                   mkEnv [(Symbol "b", VInt 5)] (Some 0)] 0).
Proof.
  destruct (define_writes_current_frame plain_host 1 (Symbol "b") (Int 5) 1
              two_frames two_frames (VInt 5) (mkEnv [] (Some 0)) eq_refl eq_refl)
    as (H & _).
  apply (H eq_refl).
Defined.

Lemma define_then_lookup_witness :
  exists st1,
    eval plain_host 2 (Lst [Symbol "define"; Symbol "x"; Int 5]) global_env
      (initial_state plain_host)
    = Some (Ok VNone, st1) /\
    eval plain_host 2 (Symbol "x") global_env st1 = Some (Ok (VInt 5), st1).
Proof.
  apply (define_then_lookup plain_host 0 "x" global_env (initial_state plain_host)).
  eexists. reflexivity.
Defined.

Lemma lambda_captures_and_applies_witness :
  exists v,
    [VInt 2; VInt 3] !! 1 = Some v /\
    dict_get (Symbol "b")
      (dict_update_str [] (combine ["a"; "b"] [VInt 2; VInt 3])) = Some v.
Proof.
  destruct (lambda_captures_and_applies plain_host 0) as (_ & _ & H & _).
  destruct (H ["a"; "b"] (Int 0) global_env [VInt 2; VInt 3]
              (initial_state plain_host)) as (_ & _ & Hb).
  assert (Hnd : List.NoDup ["a"; "b"]).
  { constructor; [simpl; intros [E|[]]; discriminate|].
    constructor; [simpl; tauto|constructor]. }
  apply (Hb Hnd eq_refl 1 "b" eq_refl).
Defined.

Lemma special_forms_ignore_bindings_witness :
  eval_step (eval plain_host 1) (call plain_host 1) (find 1)
    (Lst [Symbol "quote"; Symbol "if"]) global_env
  = eval_step (eval plain_host 1) (fun _ _ => raise TypeError) (find 1)
      (Lst [Symbol "quote"; Symbol "if"]) global_env.
Proof.
  destruct (special_forms_ignore_bindings plain_host 0 [Symbol "if"] global_env)
    as (_ & H & _).
  apply H. left. reflexivity.
Defined.

(** The texts of the examples read as the expressions used above. *)
Example parse_examples :
  parse plain_host "(define add (lambda (a b) (+ a b)))" = Some (Ok define_add) /\
  parse plain_host "(add 2 3)" = Some (Ok add_2_3) /\
  parse plain_host "(if (> 3 2) 1 2)" = Some (Ok if_gt_3_2) /\
  parse plain_host "(if (define x 1) 10 20)" = Some (Ok if_define) /\
  parse plain_host "(set! x (define x 1))" = Some (Ok set_define) /\
  parse plain_host "(define a (set! b 1))" = Some (Ok define_a_set_b) /\
  parse plain_host "(1" = Some (Raise IndexError).
Proof. repeat split; vm_compute; reflexivity. Qed.

(** ** Closed instances of the further properties *)

Lemma tokenize_reads_back_joined_tokens_witness :
  tokenize "( + 1 2 )" = ["("; "+"; "1"; "2"; ")"].
Proof.
  apply (tokenize_reads_back_joined_tokens ["("; "+"; "1"; "2"; ")"]).
  repeat (constructor;
          [split; [discriminate|split; [reflexivity|]];
           first [left; reflexivity
                 |right; eexists; split; [|reflexivity]; reflexivity]|]).
  constructor.
Defined.

Lemma parse_ignores_what_follows_witness :
  parse plain_host "(+ 1 2)) junk" = Some (Ok (Lst [Symbol "+"; Int 1; Int 2])).
Proof.
  apply (parse_ignores_what_follows plain_host "(+ 1 2)" _ ")" " junk");
    [vm_compute; reflexivity|right; reflexivity].
Defined.

Lemma parse_schemestr_round_trip_witness :
  parse plain_host (schemestr plain_str (quoted define_add)) = Some (Ok define_add).
Proof.
  apply (parse_schemestr_round_trip plain_host plain_str
           "(define add (lambda (a b) (+ a b)))");
    vm_compute; reflexivity.
Defined.

Lemma symbol_value_is_innermost_binding_witness :
  exists e v,
    heap two_frames !! 0 = Some e /\ dict_get (Symbol "b") (dict e) = Some v /\
    eval plain_host 3 (Symbol "b") 1 two_frames = Some (Ok v, two_frames).
Proof.
  apply (symbol_value_is_innermost_binding plain_host 2 "b" 1 two_frames [1; 0] 0).
  - eapply chain_up; [reflexivity|reflexivity|eapply chain_top; reflexivity].
  - apply le_n.
  - reflexivity.
Defined.

Lemma set_writes_innermost_binding_witness :
  eval plain_host 3 (Lst [Symbol "set!"; Symbol "b"; Int 1]) 1 two_frames
  = Some (Ok VNone,
          mkState [mkEnv [(Symbol "b", VInt 1)] None; mkEnv [] (Some 0)] 0).
Proof.
  assert (Hc : chain (heap two_frames) 1 [1; 0]).
  { eapply chain_up; [reflexivity|reflexivity|eapply chain_top; reflexivity]. }
  destruct (set_writes_innermost_binding plain_host 2 "b" (Int 1) 1 two_frames
              two_frames (VInt 1) [1; 0] 0 (mkEnv [(Symbol "b", VInt 0)] None)
              eq_refl Hc (le_n 2) eq_refl eq_refl) as [H _].
  exact H.
Defined.

Lemma application_errors_witness :
  eval plain_host 2 (Lst [Int 1; Int 2]) global_env (initial_state plain_host)
  = Some (Raise TypeError, initial_state plain_host).
Proof.
  destruct (application_errors plain_host 1 (Int 1) [Int 2] global_env
              (initial_state plain_host) eq_refl) as (_ & _ & H).
  apply (H (VInt 1) (initial_state plain_host) [VInt 2] (initial_state plain_host)
           eq_refl eq_refl eq_refl).
Defined.

Lemma begin_returns_the_last_value_witness :
  eval plain_host 3 (Lst [Symbol "begin"; Int 1; Int 2]) global_env
    (initial_state plain_host)
  = Some (Ok (VInt 2), initial_state plain_host).
Proof.
  destruct (begin_returns_the_last_value plain_host 2 (Symbol "begin")
              [Int 1; Int 2] global_env (initial_state plain_host)
              (initial_state plain_host) (initial_state plain_host)
              [VInt 1; VInt 2] eq_refl) as [H _];
    [vm_compute; reflexivity|reflexivity|exact H].
Defined.

Lemma evaluation_keeps_the_frames_witness :
  chain (heap two_frames_after) 1 [1; 0].
Proof.
  destruct (evaluation_keeps_the_frames plain_host 4 define_a_set_b 1 two_frames
              two_frames_after (Ok VNone)) as (_ & _ & H);
    [vm_compute; reflexivity|].
  apply H. eapply chain_up; [reflexivity|reflexivity|eapply chain_top; reflexivity].
Defined.

Lemma evaluation_keeps_the_bindings_witness :
  bound_in (heap two_frames_after) (Symbol "b") 0 = true.
Proof.
  apply (evaluation_keeps_the_bindings plain_host 4 define_a_set_b 1 two_frames
           two_frames_after (Ok VNone));
    [vm_compute; reflexivity|reflexivity].
Defined.

Lemma repl_ends_with_the_first_exception_witness :
  repl plain_host plain_str 3 "> " ["(define x 5)"; "x"] (initial_state plain_host)
  = Some ([Prompt "> "; Prompt "> "; Print "5"; Prompt "> "],
          OtherError "EOFError", x_defined).
Proof.
  assert (Ha : accepted plain_host plain_str 3 "> " ["(define x 5)"; "x"]
                 (initial_state plain_host)
                 [Prompt "> "; Prompt "> "; Print "5"] x_defined).
  { apply (accepted_cons plain_host plain_str 3 "> " "(define x 5)" ["x"]
             (Lst [Symbol "define"; Symbol "x"; Int 5]) VNone
             (initial_state plain_host) x_defined [Prompt "> "; Print "5"] x_defined);
      [vm_compute; reflexivity|vm_compute; reflexivity|].
    apply (accepted_cons plain_host plain_str 3 "> " "x" [] (Symbol "x") (VInt 5)
             x_defined x_defined [] x_defined);
      [vm_compute; reflexivity|vm_compute; reflexivity|apply accepted_nil]. }
  destruct (repl_ends_with_the_first_exception plain_host plain_str 3 "> " _ _ _ _ Ha)
    as [H _].
  exact H.
Defined.

Lemma repl_echoes_quoted_data_witness :
  repl plain_host plain_str 1 "> " ["(quote (a 1))"] (initial_state plain_host)
  = Some ([Prompt "> "; Print "(a 1)"; Prompt "> "], OtherError "EOFError",
          initial_state plain_host).
Proof.
  assert (Hp : printable plain_host (Lst [Symbol "quote"; Lst [Symbol "a"; Int 1]])).
  { simpl. repeat split; try discriminate; left; reflexivity. }
  destruct (repl_echoes_quoted_data plain_host plain_str 0 "> "
              (Lst [Symbol "a"; Int 1]) (initial_state plain_host) Hp)
    as (_ & H & _).
  exact H.
Defined.
